(** * The slurmd interface of the slurmctld charm

    A shallow embedding of [charm-slurmctld/src/interface_slurmd.py]: the
    relation handlers of the [Slurmd] object, the query [get_slurmd_info]
    and the function [ensure_unique_partitions], followed by the properties
    the design document states about them.

    Python values are modelled by the type [value]: the values [json.loads]
    produces, JSON numbers being integers (floating point numbers are left
    out of the model).  A dictionary is an association list in insertion
    order, as Python dictionaries are.  A raised exception is a [Raise]
    result.

    The data of a relation is a finite map from keys to values that the
    code reads with [data[k]] and [data.get(k)] and writes with
    [data[k] = v]; a write goes to the data of the local application, which
    the framework lets the leader alone write, with texts alone, and where
    the empty text unsets the key.  The limits of the interpreter (the depth
    of recursion of [copy.deepcopy] and [json.loads], the length of the
    integers [json.loads] reads) are outside the model.  [json.loads], the
    charm behind [self._charm] and the leadership of the unit come from
    outside the module: the first is a variable of the section of the query,
    the others are the fields of the records [charm] and [hook].  A handler
    is a function on the state it changes, which also records each action
    the handler takes, in order, and ends by returning or in the exception
    of a refused write. *)

From stdpp Require Import base option list strings gmap.
From Stdlib Require Import ZArith.

Local Open Scope string_scope.
Local Open Scope list_scope.

(** ** Exceptions and results *)

Inductive exn : Set :=
| KeyError
| TypeError
| ValueError
| JSONDecodeError.

Inductive result (A : Type) : Type :=
| Ok (a : A)
| Raise (e : exn).

Arguments Ok {A} a.
Arguments Raise {A} e.

#[global] Instance result_ret : MRet result := fun A a => Ok a.
#[global] Instance result_bind : MBind result :=
  fun A B f m => match m with Ok a => f a | Raise e => Raise e end.

#[global] Instance exn_eq_dec : EqDecision exn.
Proof. solve_decision. Defined.

#[global] Instance result_eq_dec {A} `{EqDecision A} : EqDecision (result A).
Proof. solve_decision. Defined.

Definition is_ok {A} (r : result A) : bool :=
  match r with Ok _ => true | Raise _ => false end.

(** The results of a function applied to the items of a list from left to
    right; the first exception ends the traversal. *)
Fixpoint traverse {A B} (f : A -> result B) (l : list A) : result (list B) :=
  match l with
  | [] => Ok []
  | x :: l' => y ← f x; ys ← traverse f l'; Ok (y :: ys)
  end.

(** ** Python values *)

Local Unset Elimination Schemes.

Inductive value : Type :=
| VNone
| VBool (b : bool)
| VInt (n : Z)
| VStr (s : string)
| VList (items : list value)
| VDict (entries : list (string * value)).

Local Set Elimination Schemes.

(** [bool(v)], the truth value an [if] tests. *)
Definition truthy (v : value) : bool :=
  match v with
  | VNone => false
  | VBool b => b
  | VInt n => negb (Z.eqb n 0)
  | VStr s => negb (String.eqb s "")
  | VList items => negb (Nat.eqb (length items) 0)
  | VDict entries => negb (Nat.eqb (length entries) 0)
  end.

(** [a == b].  [True] and [False] compare as the integers 1 and 0; two
    dictionaries are equal when they have the same number of entries and
    every entry of the first is an entry of the second, whatever the
    order. *)
Fixpoint py_eq (a b : value) : bool :=
  match a, b with
  | VNone, VNone => true
  | VBool x, VBool y => Z.eqb (Z.b2z x) (Z.b2z y)
  | VBool x, VInt n => Z.eqb (Z.b2z x) n
  | VInt m, VBool y => Z.eqb m (Z.b2z y)
  | VInt m, VInt n => Z.eqb m n
  | VStr s, VStr t => String.eqb s t
  | VList xs, VList ys =>
      (fix all2 (xs ys : list value) : bool :=
         match xs, ys with
         | [], [] => true
         | x :: xs', y :: ys' => py_eq x y && all2 xs' ys'
         | _, _ => false
         end) xs ys
  | VDict d, VDict e =>
      Nat.eqb (length d) (length e)
      && forallb (fun '(k, v) =>
           existsb (fun '(k', v') => String.eqb k k' && py_eq v v') e) d
  | _, _ => false
  end.

(** Keys of a dictionary built at run time.  Equal keys ([True] and [1],
    say) are one key; lists and dictionaries cannot be hashed. *)
Inductive hkey : Set :=
| KNone
| KNum (n : Z)
| KStr (s : string).

#[global] Instance hkey_eq_dec : EqDecision hkey.
Proof. solve_decision. Defined.

Definition hash_key (v : value) : result hkey :=
  match v with
  | VNone => Ok KNone
  | VBool b => Ok (KNum (Z.b2z b))
  | VInt n => Ok (KNum n)
  | VStr s => Ok (KStr s)
  | VList _ | VDict _ => Raise TypeError
  end.

(** ** Dictionaries in insertion order *)

Section alist.
Context {K V : Type} `{EqDecision K}.

Fixpoint alist_get (k : K) (d : list (K * V)) : option V :=
  match d with
  | [] => None
  | (k', v) :: d' => if decide (k' = k) then Some v else alist_get k d'
  end.

(** [d[k] = v]: an existing key keeps its place, a new one goes last. *)
Fixpoint alist_set (k : K) (v : V) (d : list (K * V)) : list (K * V) :=
  match d with
  | [] => [(k, v)]
  | (k', v') :: d' =>
      if decide (k' = k) then (k', v) :: d' else (k', v') :: alist_set k v d'
  end.
End alist.

(** [obj[k]] for a string [k]. *)
Definition getitem (obj : value) (k : string) : result value :=
  match obj with
  | VDict d =>
      match alist_get k d with
      | Some v => Ok v
      | None => Raise KeyError
      end
  | _ => Raise TypeError
  end.

(** [obj[k] = v] for a string [k]. *)
Definition setitem (obj : value) (k : string) (v : value) : result value :=
  match obj with
  | VDict d => Ok (VDict (alist_set k v d))
  | _ => Raise TypeError
  end.

Fixpoint chars (s : string) : list value :=
  match s with
  | EmptyString => []
  | String c s' => VStr (String c EmptyString) :: chars s'
  end.

(** The items a [for] loop over [obj] visits. *)
Definition iter (obj : value) : result (list value) :=
  match obj with
  | VList items => Ok items
  | VDict d => Ok (map (fun kv => VStr kv.1) d)
  | VStr s => Ok (chars s)
  | _ => Raise TypeError
  end.

(** [l.remove(x)]: the first item equal to [x] goes. *)
Fixpoint list_remove (x : value) (l : list value) : result (list value) :=
  match l with
  | [] => Raise ValueError
  | y :: l' =>
      if py_eq y x then Ok l'
      else l'' ← list_remove x l'; Ok (y :: l'')
  end.

(** [copy.deepcopy]: a value of the model shares nothing with another, so
    its copy is the value.  (A value nested deeper than the interpreter
    recurses, at which [copy.deepcopy] raises, is outside the model.) *)
Definition deepcopy {A} (x : A) : A := x.

(** ** ensure_unique_partitions *)

(** [node["node_name"]] as a dictionary key. *)
Definition node_key (node : value) : result hkey :=
  name ← getitem node "node_name"; hash_key name.

(** [{node["node_name"]: node for node in inventory}], from the dictionary
    [acc] built so far. *)
Fixpoint dict_of_nodes (inventory : list value) (acc : list (hkey * value))
  : result (list (hkey * value)) :=
  match inventory with
  | [] => Ok acc
  | node :: rest =>
      k ← node_key node;
      dict_of_nodes rest (alist_set k node acc)
  end.

(** [list({...}.values())] *)
Definition unique_nodes (inventory : list value) : result (list value) :=
  d ← dict_of_nodes inventory []; Ok (map snd d).

(** One pass of the loop on the copy [partition_tmp], without the
    bookkeeping of the list [partitions]. *)
Definition unique_partition (partition_tmp : value) : result value :=
  inventory ← getitem partition_tmp "inventory";
  nodes ← iter inventory;
  unique_inventory ← unique_nodes nodes;
  setitem partition_tmp "inventory" (VList unique_inventory).

(** The loop over [partitions_tmp]; [partitions] is the list it changes. *)
Fixpoint unique_loop (partitions_tmp partitions : list value)
  : result (list value) :=
  match partitions_tmp with
  | [] => Ok partitions
  | partition :: rest =>
      let partition_tmp := deepcopy partition in
      partitions ← list_remove partition partitions;
      partition_tmp ← unique_partition partition_tmp;
      unique_loop rest (partitions ++ [partition_tmp])
  end.

Definition ensure_unique_partitions (partitions : list value)
  : result (list value) :=
  let partitions_tmp := deepcopy partitions in
  unique_loop partitions_tmp partitions.

(** ** Relation data and get_slurmd_info *)

(** The data of one application or of one unit on a relation maps keys to
    values; those that come over a relation are texts, [VStr]. *)

(** [data[k]] on the data of one application or unit of a relation. *)
Definition data_getitem (data : gmap string value) (k : string) : result value :=
  match data !! k with
  | Some v => Ok v
  | None => Raise KeyError
  end.

(** [data.get(k)] *)
Definition data_get (data : gmap string value) (k : string) : value :=
  default VNone (data !! k).

(** One relation of [model.relations["slurmd"]]: the data of the remote
    application, [relation.data[relation.app]], and the data
    [relation.data[unit]] of each unit of [relation.units], in the order the
    loop visits them. *)
Record relation : Type := {
  app_data : gmap string value;
  units : list (gmap string value)
}.

Section query.
(** [json.loads] on a text; [None] when the text is not JSON.  (A text
    nested deeper than the interpreter recurses, or with an integer longer
    than it converts, is outside the model.) *)
Variable json_loads : string -> option value.

Definition loads (s : value) : result value :=
  match s with
  | VStr text =>
      match json_loads text with
      | Some v => Ok v
      | None => Raise JSONDecodeError
      end
  | _ => Raise TypeError
  end.

(** The loop over the units of one relation; [inventory] is the list it
    appends to. *)
Fixpoint units_loop (units : list (gmap string value))
    (inventory : list value) : result (list value) :=
  match units with
  | [] => Ok inventory
  | unit :: rest =>
      let inv := data_get unit "inventory" in
      if truthy inv then
        node ← loads inv;
        units_loop rest (inventory ++ [node])
      else units_loop rest inventory
  end.

(** The body of the loop over the relations. *)
Definition relation_partition (relation : relation) : result value :=
  raw ← data_getitem (app_data relation) "partition_info";
  partition_info ← loads raw;
  inventory ← units_loop (units relation) [];
  setitem partition_info "inventory" (VList inventory).

Fixpoint relations_loop (relations : list relation)
    (partitions : list value) : result (list value) :=
  match relations with
  | [] => Ok partitions
  | relation :: rest =>
      partition_info ← relation_partition relation;
      relations_loop rest (partitions ++ [partition_info])
  end.

Definition get_slurmd_info (relations : list relation)
  : result (list value) :=
  partitions ← relations_loop relations [];
  ensure_unique_partitions partitions.
End query.

Definition _num_relations (relations : list relation) : nat :=
  length relations.

Definition is_joined (relations : list relation) : bool :=
  Nat.ltb 0 (_num_relations relations).

(** ** The relation handlers *)

(** The events of [SlurmdInventoryEvents]. *)
Inductive notification : Set :=
| slurmd_available
| slurmd_unavailable.

(** What the handlers use of [self._charm]. *)
Record charm : Type := {
  is_slurm_installed : bool;
  slurmdbd_info : value;
  get_munge_key : value;
  hostname : value;
  port : value
}.

(** What one delivery of a relation event finds: the charm, whether the
    unit is the leader, and the data of the remote application,
    [event.relation.data[event.app]]. *)
Record hook : Type := {
  the_charm : charm;
  is_leader : bool;
  remote_data : gmap string value
}.

(** Everything a handler does, in the order it does it.  [SetItem k v] is
    a write [data[k] = v] the data took, [Refused k v] one at which it
    raised. *)
Inductive action : Type :=
| CallIsSlurmInstalled
| ReadSlurmdbdInfo
| CallGetMungeKey
| ReadHostname
| ReadPort
| CallIsLeader
| GetRemote (k : string)
| SetItem (k : string) (v : value)
| Refused (k : string) (v : value)
| SetSlurmdAvailable (b : bool)
| Emit (n : notification)
| Defer.

(** What the handlers change: the data of the local application on the
    relation, [event.relation.data[self.model.app]], as the program holds
    it, the flag behind [set_slurmd_available], and the trace of the
    actions taken.  (What the controller keeps of the writes of a hook that
    ended in an exception is outside the model.) *)
Record world : Type := {
  local_data : gmap string value;
  available : bool;
  trace : list action
}.

(** How a handler, or a step of it, ends: it returns, or the data of the
    relation raised [RelationDataError], which no handler catches. *)
Inductive ending (A : Type) : Type :=
| Returns (a : A)
| RelationDataError.

Arguments Returns {A} a.
Arguments RelationDataError {A}.

Definition handler (A : Type) : Type := hook -> world -> ending A * world.

#[global] Instance handler_ret : MRet handler := fun A a _ w => (Returns a, w).
#[global] Instance handler_bind : MBind handler :=
  fun A B f m h w =>
    match m h w with
    | (Returns a, w') => f a h w'
    | (RelationDataError, w') => (RelationDataError, w')
    end.

Definition act (a : action) (w : world) : world :=
  {| local_data := local_data w; available := available w;
     trace := trace w ++ [a] |}.

Definition ask {A} (a : action) (f : hook -> A) : handler A :=
  fun h w => (Returns (f h), act a w).

Definition is_text (v : value) : bool :=
  match v with
  | VStr _ => true
  | _ => false
  end.

(** What the data of the application holds after [data[k] = v]: the empty
    text unsets the key, as it does in the relation. *)
Definition assigned (k : string) (v : value) (data : gmap string value)
  : gmap string value :=
  match v with
  | VStr EmptyString => delete k data
  | _ => <[k := v]> data
  end.

(** [data[k] = v] on the data of the local application.  The data of an
    application takes a write from the leader only, and takes texts only:
    otherwise it raises and holds what it held. *)
Definition set_app_item (k : string) (v : value) : handler unit :=
  fun h w =>
    if is_leader h && is_text v then
      (Returns tt, {| local_data := assigned k v (local_data w);
                      available := available w;
                      trace := trace w ++ [SetItem k v] |})
    else (RelationDataError, act (Refused k v) w).

Definition set_slurmd_available (b : bool) : handler unit :=
  fun _ w =>
    (Returns tt, {| local_data := local_data w; available := b;
                    trace := trace w ++ [SetSlurmdAvailable b] |}).

Definition emit (n : notification) : handler unit :=
  fun _ w => (Returns tt, act (Emit n) w).

Definition defer : handler unit :=
  fun _ w => (Returns tt, act Defer w).

Definition _on_relation_created : handler unit :=
  installed ← ask CallIsSlurmInstalled (fun h => is_slurm_installed (the_charm h));
  if negb installed then defer
  else
    info ← ask ReadSlurmdbdInfo (fun h => slurmdbd_info (the_charm h));
    if negb (truthy info) then defer
    else
      key ← ask CallGetMungeKey (fun h => get_munge_key (the_charm h));
      _ ← set_app_item "munge_key" key;
      host ← ask ReadHostname (fun h => hostname (the_charm h));
      _ ← set_app_item "slurmctld_host" host;
      p ← ask ReadPort (fun h => port (the_charm h));
      set_app_item "slurmctld_port" p.

Definition _on_relation_changed : handler unit :=
  info ← ask (GetRemote "partition_info")
             (fun h => data_get (remote_data h) "partition_info");
  if truthy info then
    _ ← set_slurmd_available true;
    emit slurmd_available
  else defer.

Definition _on_relation_broken : handler unit :=
  leader ← ask CallIsLeader is_leader;
  _ ← (if leader : bool then set_app_item "munge_key" (VStr "") else mret tt);
  _ ← set_slurmd_available false;
  emit slurmd_unavailable.

(** The relation events the object observes, and the handler [__init__]
    registers for each. *)
Inductive lifecycle : Set :=
| relation_created
| relation_changed
| relation_departed
| relation_broken.

Definition observe (ev : lifecycle) : handler unit :=
  match ev with
  | relation_created => _on_relation_created
  | relation_changed => _on_relation_changed
  | relation_departed => _on_relation_changed
  | relation_broken => _on_relation_broken
  end.

(** One delivery, and a sequence of deliveries, each with what it finds.
    A delivery leaves the world its handler left, also when the handler
    ended in an exception; [raised] tells whether it did. *)
Definition deliver (ev : lifecycle) (h : hook) (w : world) : world :=
  snd (observe ev h w).

Definition raised (ev : lifecycle) (h : hook) (w : world) : bool :=
  match fst (observe ev h w) with
  | Returns _ => false
  | RelationDataError => true
  end.

Fixpoint deliver_all (evs : list (lifecycle * hook)) (w : world) : world :=
  match evs with
  | [] => w
  | (ev, h) :: rest => deliver_all rest (deliver ev h w)
  end.

(** The writes the data took and the events emitted, among some actions. *)
Definition writes (acts : list action) : list (string * value) :=
  omap (fun a => match a with SetItem k v => Some (k, v) | _ => None end) acts.

Definition emitted (acts : list action) : list notification :=
  omap (fun a => match a with Emit n => Some n | _ => None end) acts.

(** ** Induction on values *)

Section value_induction.
Variable P : value -> Prop.
Hypothesis HNone : P VNone.
Hypothesis HBool : forall b, P (VBool b).
Hypothesis HInt : forall n, P (VInt n).
Hypothesis HStr : forall s, P (VStr s).
Hypothesis HList : forall items, Forall P items -> P (VList items).
Hypothesis HDict :
  forall entries, Forall (fun kv => P kv.2) entries -> P (VDict entries).

Fixpoint value_ind (v : value) : P v :=
  match v with
  | VNone => HNone
  | VBool b => HBool b
  | VInt n => HInt n
  | VStr s => HStr s
  | VList items =>
      HList items
        ((fix all (l : list value) : Forall P l :=
            match l with
            | [] => List.Forall_nil P
            | x :: l' => List.Forall_cons P x l' (value_ind x) (all l')
            end) items)
  | VDict entries =>
      HDict entries
        ((fix all (l : list (string * value)) : Forall (fun kv => P kv.2) l :=
            match l with
            | [] => List.Forall_nil _
            | kv :: l' =>
                List.Forall_cons (fun kv => P kv.2) kv l'
                  (value_ind kv.2) (all l')
            end) entries)
  end.
End value_induction.

(** * Statements *)

(** The last node of an inventory whose name is the key [k]. *)
Fixpoint last_named (k : hkey) (inventory : list value) : option value :=
  match inventory with
  | [] => None
  | node :: rest =>
      match last_named k rest with
      | Some found => Some found
      | None => if decide (node_key node = Ok k) then Some node else None
      end
  end.

(** A node whose name can be the key of a dictionary. *)
Definition keyed (node : value) : Prop := is_ok (node_key node) = true.

(** A partition that holds, under [inventory], a list of such nodes. *)
Definition partition_ok (partition : value) : Prop :=
  exists inventory,
    getitem partition "inventory" = Ok (VList inventory) /\
    Forall keyed inventory.

(** No two entries of the inventory have the same name. *)
Definition names_unique (inventory : list value) : Prop :=
  forall (i j : nat) (n m : value) (k : hkey),
    inventory !! i = Some n -> inventory !! j = Some m ->
    node_key n = Ok k -> node_key m = Ok k -> i = j.

(** [node] is the last entry of [inventory] under its name. *)
Definition last_of_its_name (node : value) (inventory : list value) : Prop :=
  exists k before after,
    node_key node = Ok k /\
    inventory = before ++ node :: after /\
    forall later, later ∈ after -> node_key later <> Ok k.

(** The inventory [kept] of the partition returned for [partition]: every
    name of the input inventory once, with the last entry under it. *)
Definition last_write_wins (partition unique : value) : Prop :=
  exists inventory kept,
    getitem partition "inventory" = Ok (VList inventory) /\
    getitem unique "inventory" = Ok (VList kept) /\
    names_unique kept /\
    (forall node, node ∈ kept <-> last_of_its_name node inventory) /\
    (forall node, node ∈ inventory ->
       exists node', node' ∈ kept /\ node_key node' = node_key node).

(** [unique] is the record [partition] with its inventory replaced by the
    list of its unique nodes, every other field and the order of the fields
    as they were. *)
Definition inventory_replaced (partition unique : value) : Prop :=
  exists entries inventory nodes kept,
    partition = VDict entries /\
    alist_get "inventory" entries = Some inventory /\
    iter inventory = Ok nodes /\
    unique_nodes nodes = Ok kept /\
    unique = VDict (alist_set "inventory" (VList kept) entries) /\
    unique_nodes kept = Ok kept /\
    (alist_set "inventory" (VList kept) entries).*1 = entries.*1 /\
    (forall k, k <> "inventory" -> getitem unique k = getitem partition k).

(** ** Sample data *)

Definition node (name : string) (state : string) : value :=
  VDict [("node_name", VStr name); ("state", VStr state)].

(** Two partitions; in the first, [n1] is reported three times. *)
Definition sample_partitions : list value :=
  [ VDict [("partition_name", VStr "compute");
           ("inventory",
            VList [node "n1" "old"; node "n2" "idle"; node "n1" "stale";
                   node "n1" "new"]);
           ("partition_default", VBool true)];
    VDict [("partition_name", VStr "gpu"); ("inventory", VList [])] ].

Definition sample_unique : list value :=
  [ VDict [("partition_name", VStr "compute");
           ("inventory", VList [node "n1" "new"; node "n2" "idle"]);
           ("partition_default", VBool true)];
    VDict [("partition_name", VStr "gpu"); ("inventory", VList [])] ].

(** ** Statements about the handlers *)

(** The data holds a value under [k] that an [if] takes for true: for the
    texts relation data holds, a text that is not empty. *)
Definition published (data : gmap string value) (k : string) : Prop :=
  exists v, data !! k = Some v /\ truthy v = true.

(** No value under [k], or an empty one. *)
Definition unpublished (data : gmap string value) (k : string) : Prop :=
  data !! k = None \/ exists v, data !! k = Some v /\ truthy v = false.

(** The actions of one delivery: what it adds to the trace. *)
Definition performed (ev : lifecycle) (h : hook) (w : world) : list action :=
  drop (length (trace w)) (trace (deliver ev h w)).

(** The actions of a sequence of deliveries. *)
Definition performed_all (evs : list (lifecycle * hook)) (w : world)
  : list action :=
  drop (length (trace w)) (trace (deliver_all evs w)).

Definition sample_charm : charm :=
  {| is_slurm_installed := true;
     slurmdbd_info := VDict [("db_hostname", VStr "slurmdbd-0")];
     get_munge_key := VStr "c2VjcmV0";
     hostname := VStr "slurmctld-0";
     port := VStr "6817" |}.

Definition sample_remote : gmap string value :=
  {[ "partition_info" := VStr "{...}" ]}.

(** A delivery to the leader, and one to a unit that is not the leader. *)
Definition leader_hook : hook :=
  {| the_charm := sample_charm; is_leader := true;
     remote_data := sample_remote |}.

Definition follower_hook : hook :=
  {| the_charm := sample_charm; is_leader := false;
     remote_data := sample_remote |}.

(** A delivery before slurm is installed, and one before slurmdbd is
    there. *)
Definition early_hook : hook :=
  {| the_charm :=
       {| is_slurm_installed := false; slurmdbd_info := VNone;
          get_munge_key := VStr "c2VjcmV0"; hostname := VStr "slurmctld-0";
          port := VStr "6817" |};
     is_leader := true; remote_data := ∅ |}.

Definition fresh_world : world :=
  {| local_data := ∅; available := false; trace := [] |}.


(** ** Statements about get_slurmd_info *)

(** The relation is handled without an exception. *)
Definition handled (json_loads : string -> option value) (r : relation) : Prop :=
  is_ok (relation_partition json_loads r) = true.

(** The application published a [partition_info] that is not JSON. *)
Definition unparsable_info (json_loads : string -> option value)
    (r : relation) : Prop :=
  exists text,
    app_data r !! "partition_info" = Some (VStr text) /\
    json_loads text = None.

(** The unit published an [inventory] that is not JSON; [nonempty] says
    whether the empty text counts. *)
Definition unparsable_inventory (json_loads : string -> option value)
    (nonempty : bool) (unit : gmap string value) : Prop :=
  exists text,
    unit !! "inventory" = Some (VStr text) /\
    (nonempty = true -> text <> "") /\
    json_loads text = None.

(** The first thing to go wrong with the relation is a text that is not
    JSON: its [partition_info], or, [partition_info] and the inventories
    of the units before it being parsed, the inventory of a unit. *)
Definition parse_fault_first (json_loads : string -> option value)
    (r : relation) : Prop :=
  unparsable_info json_loads r \/
  exists raw info before unit after nodes,
    app_data r !! "partition_info" = Some raw /\
    loads json_loads raw = Ok info /\
    units r = before ++ unit :: after /\
    units_loop json_loads before [] = Ok nodes /\
    unparsable_inventory json_loads true unit.

(** A decoder for the sample texts below, in place of [json.loads]. *)
Definition quote : Ascii.ascii := Ascii.ascii_of_nat 34.

Definition quoted (s : string) : string :=
  String quote (s +:+ String quote EmptyString).

Definition partition_text (name : string) : string :=
  "{" +:+ quoted "partition_name" +:+ ": " +:+ quoted name +:+ "}".

Definition node_text (name state : string) : string :=
  "{" +:+ quoted "node_name" +:+ ": " +:+ quoted name +:+ ", "
  +:+ quoted "state" +:+ ": " +:+ quoted state +:+ "}".

Definition sample_texts : list (string * value) :=
  [ (partition_text "compute", VDict [("partition_name", VStr "compute")]);
    (partition_text "gpu", VDict [("partition_name", VStr "gpu")]);
    (node_text "n1" "idle", node "n1" "idle");
    (node_text "n1" "down", node "n1" "down");
    (node_text "n2" "idle", node "n2" "idle");
    ("{}", VDict []);
    ("[]", VList []) ].

Definition sample_loads (text : string) : option value :=
  alist_get text sample_texts.

(** The relations of the scenario of the design document: the units of
    [compute] report [n1] twice, no unit of [gpu] reports an inventory. *)
Definition compute_relation : relation :=
  {| app_data := {[ "partition_info" := VStr (partition_text "compute") ]};
     units := [ {[ "inventory" := VStr (node_text "n1" "idle") ]};
                {[ "inventory" := VStr (node_text "n2" "idle") ]};
                {[ "inventory" := VStr (node_text "n1" "down") ]} ] |}.

Definition gpu_relation : relation :=
  {| app_data := {[ "partition_info" := VStr (partition_text "gpu") ]};
     units := [ ∅; {[ "hostname" := VStr "gpu-0" ]} ] |}.

(** A relation whose application has published nothing yet, one whose
    [partition_info] is not JSON, one with a unit whose inventory is the
    empty text. *)
Definition silent_relation : relation :=
  {| app_data := ∅; units := [] |}.

Definition garbled_relation : relation :=
  {| app_data := {[ "partition_info" := VStr "{partition_name: " ]};
     units := [] |}.

Definition blank_unit_relation : relation :=
  {| app_data := {[ "partition_info" := VStr (partition_text "gpu") ]};
     units := [ {[ "inventory" := VStr "" ]} ] |}.

(** ** Further statements *)

(** The distinct items of a list, in the order in which each is first
    seen. *)
Fixpoint first_seen {A} `{EqDecision A} (l : list A) : list A :=
  match l with
  | [] => []
  | x :: l' => x :: filter (fun y => y <> x) (first_seen l')
  end.

(** The inventories the loop over the units parses: those that an [if]
    takes for true, in the order of the units. *)
Definition published_inventories (units : list (gmap string value))
  : list value :=
  filter (fun inv => truthy inv = true)
    ((fun unit => data_get unit "inventory") <$> units).

(** The partition the query returns for a relation: the record its
    application published, holding under [inventory], for each distinct
    name of the nodes its units published, in the order in which the names
    are first seen, the last node published under the name. *)
Definition partition_of (json_loads : string -> option value)
    (r : relation) (p : value) : Prop :=
  exists text entries nodes names kept,
    app_data r !! "partition_info" = Some (VStr text) /\
    json_loads text = Some (VDict entries) /\
    traverse (loads json_loads) (published_inventories (units r)) = Ok nodes /\
    traverse node_key nodes = Ok names /\
    Some <$> kept = (fun k => last_named k nodes) <$> first_seen names /\
    p = VDict (alist_set "inventory" (VList kept) entries).

(** A partition whose inventory is a list of nodes with names that are all
    different. *)
Definition already_unique (partition : value) : Prop :=
  exists entries inventory names,
    partition = VDict entries /\
    alist_get "inventory" entries = Some (VList inventory) /\
    traverse node_key inventory = Ok names /\
    NoDup names.

(** The flag that goes with the last of the notifications, or [start] when
    there is none. *)
Definition flag_after (start : bool) (ns : list notification) : bool :=
  match last ns with
  | Some slurmd_available => true
  | Some slurmd_unavailable => false
  | None => start
  end.

(** What an action does to the data and to the flag. *)
Definition effect (w : world) (a : action) : world :=
  {| local_data :=
       match a with
       | SetItem k v => assigned k v (local_data w)
       | _ => local_data w
       end;
     available :=
       match a with
       | SetSlurmdAvailable b => b
       | _ => available w
       end;
     trace := trace w ++ [a] |}.

(** The writes of the handler of peer-joined with what it reads for each,
    up to the first write that is refused. *)
Definition publish_actions (h : hook) : list action :=
  CallGetMungeKey ::
  (if is_leader h && is_text (get_munge_key (the_charm h)) then
     SetItem "munge_key" (get_munge_key (the_charm h)) :: ReadHostname ::
     (if is_leader h && is_text (hostname (the_charm h)) then
        SetItem "slurmctld_host" (hostname (the_charm h)) :: ReadPort ::
        (if is_leader h && is_text (port (the_charm h)) then
           [SetItem "slurmctld_port" (port (the_charm h))]
         else [Refused "slurmctld_port" (port (the_charm h))])
      else [Refused "slurmctld_host" (hostname (the_charm h))])
   else [Refused "munge_key" (get_munge_key (the_charm h))]).

(** The actions of a handler, read off its branches. *)
Definition actions_of (ev : lifecycle) (h : hook) : list action :=
  match ev with
  | relation_created =>
      if is_slurm_installed (the_charm h) then
        if truthy (slurmdbd_info (the_charm h)) then
          CallIsSlurmInstalled :: ReadSlurmdbdInfo :: publish_actions h
        else [CallIsSlurmInstalled; ReadSlurmdbdInfo; Defer]
      else [CallIsSlurmInstalled; Defer]
  | relation_changed | relation_departed =>
      if truthy (data_get (remote_data h) "partition_info") then
        [GetRemote "partition_info"; SetSlurmdAvailable true;
         Emit slurmd_available]
      else [GetRemote "partition_info"; Defer]
  | relation_broken =>
      CallIsLeader ::
      (if is_leader h then [SetItem "munge_key" (VStr "")] else []) ++
      [SetSlurmdAvailable false; Emit slurmd_unavailable]
  end.

(** The data after a list of writes. *)
Definition assigned_all (ws : list (string * value))
    (data : gmap string value) : gmap string value :=
  foldl (fun d kv => assigned kv.1 kv.2 d) data ws.

(** A relation whose [partition_info] is JSON but not an object. *)
Definition listed_relation : relation :=
  {| app_data := {[ "partition_info" := VStr "[]" ]}; units := [] |}.

(** A relation with a unit whose inventory is an object without a
    [node_name]. *)
Definition nameless_relation : relation :=
  {| app_data := {[ "partition_info" := VStr (partition_text "gpu") ]};
     units := [ {[ "inventory" := VStr "{}" ]} ] |}.

(** A world whose relation data already holds a key of its own, and a
    sequence of deliveries. *)
Definition settled_world : world :=
  {| local_data := {[ "egress-subnets" := VStr "10.0.0.1/32" ]};
     available := false; trace := [] |}.

Definition sample_deliveries : list (lifecycle * hook) :=
  [(relation_created, leader_hook); (relation_changed, leader_hook);
   (relation_broken, leader_hook); (relation_created, follower_hook)].

(** * Properties *)

(** ** Results *)

Lemma bind_Ok {A B} (f : A -> result B) (a : A) : Ok a ≫= f = f a.
Proof. reflexivity. Qed.

Lemma bind_Ok_inv {A B} (f : A -> result B) (m : result A) (b : B) :
  m ≫= f = Ok b -> exists a, m = Ok a /\ f a = Ok b.
Proof. destruct m as [a|e]; [eauto | discriminate]. Qed.

(** Case analysis on the monadic steps of a hypothesis or of the goal. *)
Ltac ok_inv H :=
  let a := fresh "a" in
  let Ha := fresh "Ha" in
  apply bind_Ok_inv in H; destruct H as (a & Ha & H).

Lemma traverse_length {A B} (f : A -> result B) l l' :
  traverse f l = Ok l' -> length l' = length l.
Proof.
  revert l'. induction l as [|x l IH]; intros l' H; simpl in H.
  - by inversion H.
  - ok_inv H. ok_inv H. inversion H; subst. simpl. f_equal. by apply IH.
Qed.

Lemma traverse_Forall2 {A B} (f : A -> result B) l l' :
  traverse f l = Ok l' -> Forall2 (fun x y => f x = Ok y) l l'.
Proof.
  revert l'. induction l as [|x l IH]; intros l' H; simpl in H.
  - inversion H. constructor.
  - ok_inv H. ok_inv H. inversion H; subst. constructor; [done | by apply IH].
Qed.

Lemma Forall2_traverse {A B} (f : A -> result B) l l' :
  Forall2 (fun x y => f x = Ok y) l l' -> traverse f l = Ok l'.
Proof. induction 1 as [|x y l l' Hxy _ IH]; simpl; [done | by rewrite Hxy, IH]. Qed.

Lemma traverse_total {A B} (f : A -> result B) l :
  Forall (fun x => is_ok (f x) = true) l -> exists l', traverse f l = Ok l'.
Proof.
  induction 1 as [|x l Hx _ [l' IH]]; simpl; [by eexists |].
  destruct (f x) as [y|e]; [| discriminate]. rewrite IH. by eexists.
Qed.

(** The exception of the first item that raises one is the exception of the
    traversal. *)
Lemma traverse_first_raise {A B} (f : A -> result B) pre x post ys e :
  traverse f pre = Ok ys -> f x = Raise e ->
  traverse f (pre ++ x :: post) = Raise e.
Proof.
  revert ys. induction pre as [|p pre IH]; intros ys Hpre Hx; simpl.
  - by rewrite Hx.
  - simpl in Hpre. ok_inv Hpre. ok_inv Hpre. rewrite Ha. simpl.
    by rewrite (IH _ Ha0 Hx).
Qed.

Lemma traverse_raise {A B} (f : A -> result B) l :
  Exists (fun x => is_ok (f x) = false) l -> exists e, traverse f l = Raise e.
Proof.
  induction 1 as [x l Hx | x l _ [e IH]]; simpl.
  - destruct (f x) as [y|e]; [discriminate | by exists e].
  - destruct (f x) as [y|e']; [| by exists e']. simpl. rewrite IH. by exists e.
Qed.

(** ** Values *)

Lemma py_eq_refl (v : value) : py_eq v v = true.
Proof.
  induction v as [| b | n | s | items IH | entries IH] using value_ind; simpl.
  - done.
  - apply Z.eqb_refl.
  - apply Z.eqb_refl.
  - apply String.eqb_refl.
  - induction IH as [|x l Hx _ IHl]; [done |]. by rewrite Hx, IHl.
  - rewrite Nat.eqb_refl. simpl. apply forallb_forall. intros [k v] Hin.
    apply existsb_exists. exists (k, v). split; [done |].
    rewrite String.eqb_refl. simpl.
    rewrite Forall_forall in IH. apply (IH (k, v)). by apply list_elem_of_In.
Qed.

(** On dictionaries without a repeated key, an entry of the first is an
    entry of the second exactly when the second holds an equal value under
    the same key: the comparison [py_eq] makes is Python's. *)
Lemma py_eq_entry_lookup (k : string) (v : value) (e : list (string * value)) :
  NoDup e.*1 ->
  existsb (fun '(k', v') => String.eqb k k' && py_eq v v') e
  = match alist_get k e with Some v' => py_eq v v' | None => false end.
Proof.
  induction e as [|[k' v'] e IH]; intros Hnd; simpl; [done |].
  apply NoDup_cons in Hnd as [Hk' Hnd]. specialize (IH Hnd).
  destruct (decide (k' = k)) as [->|Hne].
  - rewrite String.eqb_refl. simpl. destruct (py_eq v v'); [done |]. simpl.
    rewrite IH. destruct (alist_get k e) as [w|] eqn:Hget; [| done].
    exfalso. apply Hk'. clear -Hget. induction e as [|[k2 v2] e IHe]; [done |].
    simpl in *. destruct (decide (k2 = k)) as [->|?]; [left | right; auto].
  - destruct (String.eqb_spec k k') as [->|_]; [done |]. simpl. apply IH.
Qed.

Example py_eq_bool_int : py_eq (VBool true) (VInt 1) = true.
Proof. reflexivity. Qed.

Example py_eq_dict_order :
  py_eq (VDict [("a", VInt 1); ("b", VList [VNone])])
        (VDict [("b", VList [VNone]); ("a", VInt 1)]) = true
  /\ py_eq (VDict [("a", VInt 1)]) (VDict [("a", VInt 1); ("b", VNone)]) = false.
Proof. split; reflexivity. Qed.

Example list_remove_first_equal :
  list_remove (VInt 1) [VInt 0; VBool true; VInt 1] = Ok [VInt 0; VInt 1]
  /\ list_remove (VInt 2) [VInt 0; VBool true; VInt 1] = Raise ValueError.
Proof. split; reflexivity. Qed.

(** ** The loop of ensure_unique_partitions *)

Lemma list_remove_head (x : value) (l : list value) :
  list_remove x (x :: l) = Ok l.
Proof. simpl. by rewrite py_eq_refl. Qed.

(** With the partitions still to visit at the front of [partitions] and the
    ones already made unique behind them, [remove] takes the front one, and
    the loop is a traversal in order. *)
Lemma unique_loop_traverse (todo done_ : list value) :
  unique_loop todo (todo ++ done_)
  = out ← traverse unique_partition todo; Ok (done_ ++ out).
Proof.
  revert done_. induction todo as [|p todo IH]; intros done_.
  - simpl. by rewrite app_nil_r.
  - cbn [unique_loop]. rewrite <- app_comm_cons, list_remove_head. unfold deepcopy. simpl.
    destruct (unique_partition p) as [q|e]; simpl; [| done].
    rewrite <- app_assoc. rewrite IH.
    destruct (traverse unique_partition todo) as [out|e]; simpl; [| done].
    by rewrite <- app_assoc.
Qed.

Lemma ensure_unique_partitions_traverse (partitions : list value) :
  ensure_unique_partitions partitions = traverse unique_partition partitions.
Proof.
  unfold ensure_unique_partitions, deepcopy.
  rewrite <- (app_nil_r partitions) at 2. rewrite unique_loop_traverse.
  by destruct (traverse unique_partition partitions).
Qed.

(** ** Dictionaries in insertion order *)

Section alist_facts.
Context {K V : Type} `{EqDecision K}.
Implicit Types (k : K) (v : V) (d : list (K * V)).

Lemma alist_get_set_eq k v d : alist_get k (alist_set k v d) = Some v.
Proof.
  induction d as [|[k' v'] d IH]; simpl.
  - by rewrite decide_True.
  - destruct (decide (k' = k)) as [->|Hne]; simpl.
    + by rewrite decide_True.
    + by rewrite decide_False.
Qed.

Lemma alist_get_set_ne k k' v d :
  k <> k' -> alist_get k' (alist_set k v d) = alist_get k' d.
Proof.
  intros Hne. induction d as [|[k2 v2] d IH]; simpl.
  - by rewrite decide_False.
  - destruct (decide (k2 = k)) as [->|Hne2]; simpl.
    + by rewrite !decide_False.
    + by rewrite IH.
Qed.

Lemma alist_get_None k d : alist_get k d = None <-> k ∉ d.*1.
Proof.
  induction d as [|[k' v'] d IH]; simpl.
  - split; [intros _; apply not_elem_of_nil | done].
  - rewrite not_elem_of_cons. destruct (decide (k' = k)) as [->|Hne].
    + split; [discriminate | intros []; congruence].
    + rewrite IH. intuition congruence.
Qed.

Lemma alist_set_fresh k v d : k ∉ d.*1 -> alist_set k v d = d ++ [(k, v)].
Proof.
  induction d as [|[k' v'] d IH]; simpl; [done |].
  rewrite not_elem_of_cons. intros [Hne Hk].
  rewrite decide_False by congruence. by rewrite IH.
Qed.

Lemma alist_set_set k v d : alist_set k v (alist_set k v d) = alist_set k v d.
Proof.
  induction d as [|[k' v'] d IH]; simpl.
  - by rewrite decide_True.
  - destruct (decide (k' = k)) as [->|Hne]; simpl.
    + by rewrite decide_True.
    + by rewrite decide_False, IH.
Qed.

Lemma alist_set_keys k v d :
  (alist_set k v d).*1 = if decide (k ∈ d.*1) then d.*1 else d.*1 ++ [k].
Proof.
  induction d as [|[k' v'] d IH]; [done |].
  cbn [alist_set]. rewrite fmap_cons. cbn [fst].
  destruct (decide (k' = k)) as [->|Hne].
  - rewrite fmap_cons. cbn [fst]. by rewrite decide_True by left.
  - rewrite fmap_cons, IH. cbn [fst].
    destruct (decide (k ∈ d.*1)) as [Hin|Hin].
    + by rewrite decide_True by (by right).
    + rewrite decide_False; [done |].
      rewrite not_elem_of_cons. split; congruence.
Qed.

Lemma alist_set_NoDup k v d : NoDup d.*1 -> NoDup (alist_set k v d).*1.
Proof.
  intros Hnd. rewrite alist_set_keys. case_decide; [done |].
  apply NoDup_app. repeat split; [done | | apply NoDup_singleton].
  intros x Hx ->%list_elem_of_singleton. done.
Qed.

(** The key of the [i]-th entry opens the [i]-th entry when no key is
    repeated. *)
Lemma alist_get_lookup k v d (i : nat) :
  NoDup d.*1 -> d !! i = Some (k, v) -> alist_get k d = Some v.
Proof.
  revert i. induction d as [|[k' v'] d IH]; intros i Hnd Hi; [done |].
  rewrite fmap_cons in Hnd. apply NoDup_cons in Hnd as [Hk' Hnd].
  cbn [alist_get]. destruct i as [|i]; simpl in Hi.
  - inversion Hi; subst. by rewrite decide_True.
  - destruct (decide (k' = k)) as [->|Hne]; [| by eapply IH].
    exfalso. apply Hk'. apply list_elem_of_fmap. exists (k, v).
    split; [done |]. apply list_elem_of_lookup. by exists i.
Qed.

Lemma alist_get_elem k v d : alist_get k d = Some v -> (k, v) ∈ d.
Proof.
  induction d as [|[k' v'] d IH]; simpl; [done |].
  destruct (decide (k' = k)) as [->|Hne].
  - intros [= ->]. by left.
  - intros Hget. right. by apply IH.
Qed.
End alist_facts.

(** ** The dictionary of the nodes *)

Lemma last_named_None k inventory :
  last_named k inventory = None <->
  forall node, node ∈ inventory -> node_key node <> Ok k.
Proof.
  induction inventory as [|x rest IH]; simpl.
  - split; [| done]. intros _ node Hin. by apply elem_of_nil in Hin.
  - destruct (last_named k rest) as [found|].
    + split; [done |]. intros Hall. exfalso.
      assert (Some found = None) as Habs; [| done].
      apply IH. intros node Hin. apply Hall. by right.
    + destruct IH as [IH _]. specialize (IH eq_refl). case_decide as Hx.
      * split; [done |]. intros Hall. exfalso. by apply (Hall x); [left |].
      * split; [| done]. intros _ node [->|Hin]%elem_of_cons; auto.
Qed.

Lemma last_named_app k before after :
  last_named k (before ++ after)
  = match last_named k after with
    | Some found => Some found
    | None => last_named k before
    end.
Proof.
  induction before as [|x before IH]; simpl.
  - by destruct (last_named k after).
  - rewrite IH. by destruct (last_named k after).
Qed.

Lemma last_named_key k inventory node :
  last_named k inventory = Some node -> node_key node = Ok k.
Proof.
  induction inventory as [|x rest IH]; simpl; [done |].
  destruct (last_named k rest) as [found|].
  - intros [= ->]. by apply IH.
  - case_decide; [| done]. by intros [= ->].
Qed.

Lemma last_named_split k inventory node :
  last_named k inventory = Some node ->
  exists before after,
    inventory = before ++ node :: after /\ last_named k after = None.
Proof.
  induction inventory as [|x rest IH]; simpl; [done |].
  destruct (last_named k rest) as [found|] eqn:Hrest.
  - intros [= ->]. destruct (IH eq_refl) as (before & after & -> & Hnone).
    by exists (x :: before), after.
  - case_decide; [| done]. intros [= ->]. by exists [], rest.
Qed.

Lemma last_named_spec k inventory node :
  last_named k inventory = Some node <->
  node_key node = Ok k /\
  exists before after,
    inventory = before ++ node :: after /\
    forall later, later ∈ after -> node_key later <> Ok k.
Proof.
  split.
  - intros Hlast. split; [by eapply last_named_key |].
    destruct (last_named_split _ _ _ Hlast) as (before & after & -> & Hnone).
    exists before, after. split; [done |]. by apply last_named_None.
  - intros (Hk & before & after & -> & Hafter).
    apply last_named_None in Hafter. rewrite last_named_app. simpl.
    rewrite Hafter. by rewrite decide_True.
Qed.

Lemma dict_of_nodes_get inventory acc d :
  dict_of_nodes inventory acc = Ok d ->
  forall k,
    alist_get k d
    = match last_named k inventory with
      | Some node => Some node
      | None => alist_get k acc
      end.
Proof.
  revert acc. induction inventory as [|x rest IH]; intros acc Hd k; simpl in *.
  - by inversion Hd.
  - ok_inv Hd. rename a into kx. rewrite (IH _ Hd k).
    destruct (last_named k rest) as [found|]; [done |].
    destruct (decide (kx = k)) as [->|Hne].
    + by rewrite decide_True, alist_get_set_eq.
    + rewrite decide_False by congruence. by apply alist_get_set_ne.
Qed.

Lemma dict_of_nodes_NoDup inventory acc d :
  dict_of_nodes inventory acc = Ok d -> NoDup acc.*1 -> NoDup d.*1.
Proof.
  revert acc. induction inventory as [|x rest IH]; intros acc Hd Hnd; simpl in *.
  - by inversion Hd; subst.
  - ok_inv Hd. eapply IH; [done |]. by apply alist_set_NoDup.
Qed.

Lemma dict_of_nodes_total inventory acc :
  Forall keyed inventory -> exists d, dict_of_nodes inventory acc = Ok d.
Proof.
  intros Hall. revert acc.
  induction Hall as [|x rest Hx _ IH]; intros acc; simpl; [by eexists |].
  unfold keyed in Hx. destruct (node_key x) as [k|e]; [| discriminate].
  apply IH.
Qed.

(** Nodes with names all different, none of them in the dictionary yet,
    enter it in their order. *)
Lemma dict_of_nodes_fresh (d acc : list (hkey * value)) :
  NoDup (acc.*1 ++ d.*1) ->
  (forall k node, (k, node) ∈ d -> node_key node = Ok k) ->
  dict_of_nodes d.*2 acc = Ok (acc ++ d).
Proof.
  revert acc. induction d as [|[k node] d IH]; intros acc Hnd Hkeys.
  - by rewrite app_nil_r.
  - rewrite fmap_cons. cbn [snd dict_of_nodes].
    rewrite (Hkeys k node) by left. simpl.
    rewrite fmap_cons in Hnd. cbn [fst] in Hnd.
    rewrite alist_set_fresh.
    + rewrite (cons_middle _ acc d), app_assoc. apply IH.
      * by rewrite fmap_app, <- app_assoc.
      * intros k' node' Hin. apply Hkeys. by right.
    + apply NoDup_app in Hnd as (_ & Hdisj & _). intros Hin.
      apply (Hdisj k Hin). by left.
Qed.

Lemma unique_nodes_inv inventory kept :
  unique_nodes inventory = Ok kept ->
  exists d,
    kept = d.*2 /\ NoDup d.*1 /\
    (forall k, alist_get k d = last_named k inventory).
Proof.
  unfold unique_nodes. intros H. ok_inv H. inversion H; subst.
  exists a. split; [done |]. split.
  - eapply dict_of_nodes_NoDup; [done |]. constructor.
  - intros k. rewrite (dict_of_nodes_get _ _ _ Ha k).
    by destruct (last_named k inventory).
Qed.

Lemma unique_nodes_unique inventory kept :
  unique_nodes inventory = Ok kept -> names_unique kept.
Proof.
  intros (d & -> & Hnd & Hget)%unique_nodes_inv i j n m k Hi Hj Hn Hm.
  rewrite list_lookup_fmap in Hi, Hj.
  destruct (d !! i) as [[ki n']|] eqn:Hdi; [| done].
  destruct (d !! j) as [[kj m']|] eqn:Hdj; [| done].
  simpl in Hi, Hj. inversion Hi; inversion Hj; subst.
  assert (Hki : node_key n = Ok ki).
  { eapply last_named_key. rewrite <- Hget. by eapply alist_get_lookup. }
  assert (Hkj : node_key m = Ok kj).
  { eapply last_named_key. rewrite <- Hget. by eapply alist_get_lookup. }
  assert (ki = k) as -> by congruence. assert (kj = k) as -> by congruence.
  eapply NoDup_lookup; [exact Hnd | |]; rewrite list_lookup_fmap.
  - by rewrite Hdi.
  - by rewrite Hdj.
Qed.

Lemma unique_nodes_last inventory kept node :
  unique_nodes inventory = Ok kept ->
  node ∈ kept <-> last_of_its_name node inventory.
Proof.
  intros (d & -> & Hnd & Hget)%unique_nodes_inv. split.
  - intros ([k n] & -> & Hin)%list_elem_of_fmap. simpl.
    apply list_elem_of_lookup in Hin as [i Hi].
    pose proof (alist_get_lookup _ _ _ _ Hnd Hi) as Hk. rewrite Hget in Hk.
    apply last_named_spec in Hk as (Hk & before & after & -> & Hafter).
    by exists k, before, after.
  - intros (k & before & after & Hk & -> & Hafter).
    assert (Hlast : last_named k (before ++ node :: after) = Some node).
    { apply last_named_spec. split; [done |]. by exists before, after. }
    rewrite <- Hget in Hlast. apply alist_get_elem in Hlast.
    apply list_elem_of_fmap. by exists (k, node).
Qed.

Lemma unique_nodes_complete inventory kept node :
  unique_nodes inventory = Ok kept -> node ∈ inventory ->
  exists node', node' ∈ kept /\ node_key node' = node_key node.
Proof.
  intros Hu Hin. pose proof Hu as (d & -> & Hnd & Hget)%unique_nodes_inv.
  assert (exists k, node_key node = Ok k) as [k Hk].
  { unfold unique_nodes in Hu. ok_inv Hu. clear -Ha Hin.
    revert Ha. generalize (@nil (hkey * value)).
    induction inventory as [|x rest IH]; intros acc Hd; [by inversion Hin |].
    simpl in Hd. ok_inv Hd. apply elem_of_cons in Hin as [->|Hin]; eauto. }
  destruct (last_named k inventory) as [found|] eqn:Hlast.
  - exists found. split.
    + rewrite <- Hget in Hlast. apply alist_get_elem in Hlast.
      apply list_elem_of_fmap. by exists (k, found).
    + rewrite Hk. by eapply last_named_key.
  - exfalso. by eapply last_named_None.
Qed.

Lemma unique_nodes_idem inventory kept :
  unique_nodes inventory = Ok kept -> unique_nodes kept = Ok kept.
Proof.
  intros (d & -> & Hnd & Hget)%unique_nodes_inv. unfold unique_nodes.
  rewrite (dict_of_nodes_fresh d []); [done | done |].
  intros k node Hin. apply list_elem_of_lookup in Hin as [i Hi].
  eapply last_named_key. rewrite <- Hget. by eapply alist_get_lookup.
Qed.

Lemma unique_nodes_total inventory :
  Forall keyed inventory -> exists kept, unique_nodes inventory = Ok kept.
Proof.
  intros Hall. unfold unique_nodes.
  destruct (dict_of_nodes_total inventory [] Hall) as [d ->]. by eexists.
Qed.

(** ** One partition *)

Lemma alist_get_Some_keys {V} (k : string) (v : V) (d : list (string * V)) :
  alist_get k d = Some v -> k ∈ d.*1.
Proof.
  intros Hget. destruct (decide (k ∈ d.*1)) as [|Hout]; [done |].
  apply alist_get_None in Hout. congruence.
Qed.

Lemma unique_partition_inv (partition unique : value) :
  unique_partition partition = Ok unique -> inventory_replaced partition unique.
Proof.
  unfold unique_partition. intros H. ok_inv H. ok_inv H. ok_inv H.
  rename a into inventory, a0 into nodes, a1 into kept.
  destruct partition as [| | | | |entries]; try discriminate.
  simpl in Ha, H. inversion H; subst; clear H.
  destruct (alist_get "inventory" entries) as [inv|] eqn:Hget; [| discriminate].
  inversion Ha; subst; clear Ha.
  exists entries, inventory, nodes, kept. repeat split; try done.
  - by eapply unique_nodes_idem.
  - rewrite alist_set_keys. rewrite decide_True; [done |].
    by eapply alist_get_Some_keys.
  - intros k Hk. simpl. by rewrite alist_get_set_ne.
Qed.

Lemma unique_partition_idem (partition unique : value) :
  unique_partition partition = Ok unique -> unique_partition unique = Ok unique.
Proof.
  intros (entries & inventory & nodes & kept & -> & Hget & Hiter & Hkept
          & -> & Hidem & _)%unique_partition_inv.
  unfold unique_partition. simpl. rewrite alist_get_set_eq. simpl.
  rewrite Hidem. simpl. by rewrite alist_set_set.
Qed.

Lemma unique_partition_last_wins (partition : value) :
  partition_ok partition ->
  exists unique,
    unique_partition partition = Ok unique /\ last_write_wins partition unique.
Proof.
  intros (inventory & Hget & Hall).
  destruct (unique_nodes_total inventory Hall) as [kept Hkept].
  destruct partition as [| | | | |entries]; try discriminate.
  exists (VDict (alist_set "inventory" (VList kept) entries)). split.
  - unfold unique_partition. rewrite Hget. simpl. by rewrite Hkept.
  - exists inventory, kept. split; [done |]. split.
    { simpl. by rewrite alist_get_set_eq. }
    split; [by eapply unique_nodes_unique |]. split.
    + intros n. by apply unique_nodes_last.
    + intros n. by apply unique_nodes_complete.
Qed.

(** ** ensure_unique_partitions *)



Example ensure_unique_partitions_sample :
  ensure_unique_partitions sample_partitions = Ok sample_unique.
Proof. reflexivity. Qed.

(** What the function raises on partitions of another shape: no inventory,
    a node without a name, a name that cannot be a key, an inventory that
    cannot be iterated. *)
Example ensure_unique_partitions_raises :
  ensure_unique_partitions [VDict [("partition_name", VStr "p")]]
  = Raise KeyError /\
  ensure_unique_partitions [VDict [("inventory", VList [VDict []])]]
  = Raise KeyError /\
  ensure_unique_partitions
    [VDict [("inventory", VList [VDict [("node_name", VList [])]])]]
  = Raise TypeError /\
  ensure_unique_partitions [VDict [("inventory", VInt 3)]] = Raise TypeError /\
  ensure_unique_partitions [VList []] = Raise TypeError.
Proof. repeat split; reflexivity. Qed.

(** C2. The deduplication step is idempotent: for every list of partitions,
    [ensure_unique_partitions] applied to its own result gives the result
    again (and an exception of the first application is the outcome of the
    two in sequence). *)
Theorem ensure_unique_partitions_idempotent (partitions : list value) :
  ensure_unique_partitions partitions ≫= ensure_unique_partitions
  = ensure_unique_partitions partitions.
Proof.
  destruct (ensure_unique_partitions partitions) as [unique|e] eqn:Hfirst;
    [| done].
  simpl. rewrite ensure_unique_partitions_traverse in *.
  apply Forall2_traverse. apply traverse_Forall2 in Hfirst.
  induction Hfirst as [|p q ps qs Hpq _ IH]; constructor; [| done].
  by eapply unique_partition_idem.
Qed.

(** C8. The deduplication step keeps the partitions in their order: the
    loop that removes each partition from the list and appends its copy is
    the traversal of the list in order, and in a returned list the [i]-th
    partition is the [i]-th input partition with its inventory replaced by
    the list of its unique nodes. *)
Theorem ensure_unique_partitions_order (partitions : list value) :
  ensure_unique_partitions partitions
  = traverse unique_partition partitions /\
  forall unique,
    ensure_unique_partitions partitions = Ok unique ->
    length unique = length partitions /\
    forall (i : nat) (p : value),
      partitions !! i = Some p ->
      exists q, unique !! i = Some q /\ inventory_replaced p q.
Proof.
  split; [apply ensure_unique_partitions_traverse |].
  intros unique. rewrite ensure_unique_partitions_traverse. intros Hu. split.
  - by eapply traverse_length.
  - apply traverse_Forall2 in Hu. intros i p Hi.
    destruct (Forall2_lookup_l _ _ _ _ _ Hu Hi) as (q & Hq & Hpq).
    exists q. split; [done |]. by apply unique_partition_inv.
Qed.

Lemma ensure_unique_partitions_order_witness :
  length sample_unique = length sample_partitions /\
  forall (i : nat) (p : value),
    sample_partitions !! i = Some p ->
    exists q, sample_unique !! i = Some q /\ inventory_replaced p q.
Proof.
  apply (proj2 (ensure_unique_partitions_order sample_partitions)).
  reflexivity.
Defined.

(** ** The relation handlers *)

Lemma data_get_truthy (data : gmap string value) (k : string) :
  truthy (data_get data k) = true <-> published data k.
Proof.
  unfold data_get, published. destruct (data !! k) as [v|]; simpl.
  - split; [by exists v | by intros (? & [= <-] & ?)].
  - split; [done | by intros (? & ? & ?)].
Qed.

Lemma data_get_falsy (data : gmap string value) (k : string) :
  truthy (data_get data k) = false <-> unpublished data k.
Proof.
  unfold data_get, unpublished. destruct (data !! k) as [v|]; simpl.
  - split; [intros Hv; right; by exists v |].
    by intros [|(? & [= <-] & ?)].
  - split; [by left | done].
Qed.

Lemma performed_app (ev : lifecycle) (h : hook) (w : world) (acts : list action) :
  trace (deliver ev h w) = trace w ++ acts -> performed ev h w = acts.
Proof.
  unfold performed. intros ->. by rewrite drop_app_length.
Qed.

#[local] Arguments is_text : simpl never.
#[local] Arguments assigned : simpl never.

(** Unfold a delivery down to the steps of its handler. *)
Ltac run_handler :=
  unfold deliver, raised, observe, _on_relation_created, _on_relation_changed,
    _on_relation_broken, mbind, handler_bind, mret, handler_ret, ask,
    set_app_item, set_slurmd_available, emit, defer, act;
  simpl.

(** Case analysis on every test a handler or the data makes. *)
Ltac handler_cases h :=
  destruct (is_slurm_installed (the_charm h)) eqn:?;
  destruct (truthy (slurmdbd_info (the_charm h))) eqn:?;
  destruct (truthy (data_get (remote_data h) "partition_info")) eqn:?;
  destruct (is_leader h) eqn:?;
  destruct (is_text (get_munge_key (the_charm h))) eqn:?;
  destruct (is_text (hostname (the_charm h))) eqn:?;
  destruct (is_text (port (the_charm h))) eqn:?.

Ltac rewrite_cases :=
  simpl; repeat (match goal with H : _ = _ |- _ => rewrite H end; simpl).

(** Work out the world after some actions. *)
Ltac run_effects :=
  unfold effect; simpl; rewrite <- ?app_assoc; simpl.

(** A delivery is its actions, one after the other. *)
Lemma deliver_effects (ev : lifecycle) (h : hook) (w : world) :
  deliver ev h w = foldl effect w (actions_of ev h).
Proof.
  destruct ev; run_handler; unfold actions_of, publish_actions;
    handler_cases h; rewrite_cases; reflexivity.
Qed.

Lemma effects_trace (acts : list action) (w : world) :
  trace (foldl effect w acts) = trace w ++ acts.
Proof.
  revert w. induction acts as [|a acts IH]; intros w; simpl.
  - by rewrite app_nil_r.
  - rewrite IH. simpl. by rewrite <- app_assoc.
Qed.

Lemma effects_data (acts : list action) (w : world) :
  local_data (foldl effect w acts)
  = assigned_all (writes acts) (local_data w).
Proof.
  revert w. induction acts as [|a acts IH]; intros w; [done |].
  cbn [foldl]. rewrite IH. by destruct a.
Qed.

Lemma performed_actions (ev : lifecycle) (h : hook) (w : world) :
  performed ev h w = actions_of ev h.
Proof.
  unfold performed. by rewrite deliver_effects, effects_trace, drop_app_length.
Qed.

Lemma deliver_data (ev : lifecycle) (h : hook) (w : world) :
  local_data (deliver ev h w)
  = assigned_all (writes (actions_of ev h)) (local_data w).
Proof. by rewrite deliver_effects, effects_data. Qed.

Lemma deliver_flag (ev : lifecycle) (h : hook) (w : world) :
  available (deliver ev h w)
  = flag_after (available w) (emitted (actions_of ev h)).
Proof.
  rewrite deliver_effects. unfold actions_of, publish_actions.
  destruct ev; handler_cases h; reflexivity.
Qed.

Lemma performed_all_cons (ev : lifecycle) (h : hook)
    (evs : list (lifecycle * hook)) (w : world) :
  performed_all ((ev, h) :: evs) w
  = actions_of ev h ++ performed_all evs (deliver ev h w).
Proof.
  assert (Htrace : forall evs' w',
    trace (deliver_all evs' w') = trace w' ++ performed_all evs' w').
  { clear. intros evs'. unfold performed_all.
    induction evs' as [|[ev' h'] evs' IH]; intros w'; simpl.
    - by rewrite drop_all, app_nil_r.
    - rewrite IH, deliver_effects, effects_trace, <- app_assoc.
      by rewrite length_app, <- drop_drop, !drop_app_length. }
  unfold performed_all at 1. simpl. rewrite Htrace.
  rewrite deliver_effects, effects_trace, <- app_assoc.
  by rewrite drop_app_length.
Qed.

(** What the data holds after a write, and after a list of writes. *)
Lemma lookup_assigned (k k' : string) (v : value) (data : gmap string value) :
  assigned k v data !! k'
  = if decide (k = k') then
      match v with VStr EmptyString => None | _ => Some v end
    else data !! k'.
Proof.
  unfold assigned. destruct (decide (k = k')) as [->|Hne].
  - destruct v as [| | | [|c s] | |];
      by rewrite ?lookup_delete_eq, ?lookup_insert_eq.
  - destruct v as [| | | [|c s] | |];
      by rewrite ?lookup_delete_ne, ?lookup_insert_ne.
Qed.

Lemma assigned_all_frame (ws : list (string * value)) (k : string)
    (data : gmap string value) :
  k ∉ ws.*1 -> assigned_all ws data !! k = data !! k.
Proof.
  unfold assigned_all. revert data.
  induction ws as [|[k' v] ws IH]; intros data Hk; [done |].
  rewrite fmap_cons, not_elem_of_cons in Hk. destruct Hk as [Hne Hk].
  cbn [foldl]. rewrite IH by done. simpl.
  rewrite lookup_assigned. by rewrite decide_False.
Qed.

(** The keys a delivery writes are among the three of the handshake. *)
Lemma written_keys (ev : lifecycle) (h : hook) (k : string) :
  k ∈ (writes (actions_of ev h)).*1 ->
  k = "munge_key" \/ k = "slurmctld_host" \/ k = "slurmctld_port".
Proof.
  unfold actions_of, publish_actions. intros Hin%list_elem_of_In.
  destruct ev; handler_cases h; simpl in Hin; intuition.
Qed.



Lemma relation_created_deferred_world (h : hook) (w : world) :
  is_slurm_installed (the_charm h) = false \/
  truthy (slurmdbd_info (the_charm h)) = false ->
  deliver relation_created h w
  = {| local_data := local_data w;
       available := available w;
       trace := trace w ++
         (if is_slurm_installed (the_charm h)
          then [CallIsSlurmInstalled; ReadSlurmdbdInfo; Defer]
          else [CallIsSlurmInstalled; Defer]) |}.
Proof.
  intros Hpre. rewrite deliver_effects. unfold actions_of.
  destruct (is_slurm_installed (the_charm h)).
  - destruct Hpre as [|Hinfo]; [done |]. rewrite Hinfo. by run_effects.
  - by run_effects.
Qed.

(** C4. A peer-joined transition checks that slurm is installed, then that
    slurmdbd is there; when either check fails it defers and changes
    nothing: no relation data is written, the availability flag is as it
    was, nothing is emitted.  When slurm is not installed the second check
    is not made. *)
Theorem relation_created_defers (h : hook) (w : world) :
  is_slurm_installed (the_charm h) = false \/
  truthy (slurmdbd_info (the_charm h)) = false ->
  deliver relation_created h w
  = {| local_data := local_data w;
       available := available w;
       trace := trace w ++
         (if is_slurm_installed (the_charm h)
          then [CallIsSlurmInstalled; ReadSlurmdbdInfo; Defer]
          else [CallIsSlurmInstalled; Defer]) |} /\
  writes (performed relation_created h w) = [] /\
  emitted (performed relation_created h w) = [] /\
  Defer ∈ performed relation_created h w.
Proof.
  intros Hpre. pose proof (relation_created_deferred_world h w Hpre) as Heq.
  split; [done |].
  rewrite (performed_app _ _ _ _ (f_equal trace Heq)).
  destruct (is_slurm_installed (the_charm h)); repeat split;
    try done; apply list_elem_of_In; simpl; tauto.
Qed.

Lemma relation_created_defers_witness :
  deliver relation_created early_hook fresh_world
  = {| local_data := ∅; available := false;
       trace := [CallIsSlurmInstalled; Defer] |}.
Proof.
  apply (relation_created_defers early_hook fresh_world). by left.
Defined.

Lemma relation_changed_published (ev : lifecycle) (h : hook) (w : world) :
  ev = relation_changed \/ ev = relation_departed ->
  published (remote_data h) "partition_info" ->
  deliver ev h w
  = {| local_data := local_data w;
       available := true;
       trace := trace w ++
         [GetRemote "partition_info"; SetSlurmdAvailable true;
          Emit slurmd_available] |}.
Proof.
  intros Hev Hpub%data_get_truthy. rewrite deliver_effects.
  assert (actions_of ev h
          = [GetRemote "partition_info"; SetSlurmdAvailable true;
             Emit slurmd_available]) as ->
    by (destruct Hev as [-> | ->]; simpl; by rewrite Hpub).
  by run_effects.
Qed.

Lemma relation_changed_unpublished (ev : lifecycle) (h : hook) (w : world) :
  ev = relation_changed \/ ev = relation_departed ->
  unpublished (remote_data h) "partition_info" ->
  deliver ev h w
  = {| local_data := local_data w;
       available := available w;
       trace := trace w ++ [GetRemote "partition_info"; Defer] |}.
Proof.
  intros Hev Hpub%data_get_falsy. rewrite deliver_effects.
  assert (actions_of ev h = [GetRemote "partition_info"; Defer]) as ->
    by (destruct Hev as [-> | ->]; simpl; by rewrite Hpub).
  by run_effects.
Qed.

Lemma relation_broken_world (h : hook) (w : world) :
  deliver relation_broken h w
  = {| local_data :=
         if is_leader h then delete "munge_key" (local_data w)
         else local_data w;
       available := false;
       trace := trace w ++
         CallIsLeader ::
         (if is_leader h then [SetItem "munge_key" (VStr "")] else []) ++
         [SetSlurmdAvailable false; Emit slurmd_unavailable] |}.
Proof.
  rewrite deliver_effects. unfold actions_of.
  destruct (is_leader h); by run_effects.
Qed.

(** C7. A peer-left transition sets the availability flag to false and
    emits [slurmd_unavailable], leader or not; it writes the empty text
    under [munge_key], which unsets the key, when the unit is the leader,
    and writes nothing when it is not. *)
Theorem relation_broken_unavailable (h : hook) (w : world) :
  deliver relation_broken h w
  = {| local_data :=
         if is_leader h then delete "munge_key" (local_data w)
         else local_data w;
       available := false;
       trace := trace w ++
         CallIsLeader ::
         (if is_leader h then [SetItem "munge_key" (VStr "")] else []) ++
         [SetSlurmdAvailable false; Emit slurmd_unavailable] |} /\
  emitted (performed relation_broken h w) = [slurmd_unavailable] /\
  writes (performed relation_broken h w)
  = (if is_leader h then [("munge_key", VStr "")] else []) /\
  (("munge_key", VStr "") ∈ writes (performed relation_broken h w)
   <-> is_leader h = true).
Proof.
  pose proof (relation_broken_world h w) as Heq. split; [done |].
  rewrite (performed_app _ _ _ _ (f_equal trace Heq)).
  destruct (is_leader h); simpl; repeat split; try done.
  - intros _. by left.
  - intros Hin. by apply elem_of_nil in Hin.
Qed.

(** Deliveries of a changed or departed event, one after the other, each
    finding [partition_info] published. *)
Lemma redelivery_world (ev : lifecycle) (hs : list hook) (w : world) :
  ev = relation_changed \/ ev = relation_departed ->
  Forall (fun h => published (remote_data h) "partition_info") hs ->
  deliver_all (pair ev <$> hs) w
  = {| local_data := local_data w;
       available := if hs is [] then available w else true;
       trace := trace w ++
         mjoin (replicate (length hs)
                  [GetRemote "partition_info"; SetSlurmdAvailable true;
                   Emit slurmd_available]) |}.
Proof.
  intros Hev Hall. revert w.
  induction Hall as [|h hs Hh _ IH]; intros w.
  - destruct w. simpl. by rewrite app_nil_r.
  - rewrite fmap_cons. cbn [deliver_all].
    rewrite (relation_changed_published ev h w Hev Hh), IH. simpl.
    rewrite <- app_assoc. by destruct hs.
Qed.

(** C6. A peer-data-changed or peer-departed transition that finds
    [partition_info] present and not empty in the data of the peer
    application sets the availability flag to true and emits
    [slurmd_available]; it does so at each of any number of deliveries that
    find the data present.  One that finds [partition_info] absent or empty
    defers, emits nothing and leaves the flag as it was.  Neither writes
    relation data. *)
Theorem relation_changed_signals (ev : lifecycle) (h : hook) (w : world) :
  ev = relation_changed \/ ev = relation_departed ->
  (published (remote_data h) "partition_info" ->
   deliver ev h w
   = {| local_data := local_data w;
        available := true;
        trace := trace w ++
          [GetRemote "partition_info"; SetSlurmdAvailable true;
           Emit slurmd_available] |}) /\
  (unpublished (remote_data h) "partition_info" ->
   deliver ev h w
   = {| local_data := local_data w;
        available := available w;
        trace := trace w ++ [GetRemote "partition_info"; Defer] |}) /\
  (forall hs : list hook,
     Forall (fun h' => published (remote_data h') "partition_info") hs ->
     emitted (performed_all (pair ev <$> hs) w)
     = replicate (length hs) slurmd_available /\
     (hs <> [] -> available (deliver_all (pair ev <$> hs) w) = true) /\
     local_data (deliver_all (pair ev <$> hs) w) = local_data w).
Proof.
  intros Hev. split; [| split].
  - intros Hpub. by apply relation_changed_published.
  - intros Hpub. by apply relation_changed_unpublished.
  - intros hs Hall. unfold performed_all.
    rewrite (redelivery_world ev hs w Hev Hall). simpl.
    rewrite drop_app_length. split; [| split; [by destruct hs | done]].
    clear. induction hs as [|h' hs IH]; [done |].
    simpl. by rewrite IH.
Qed.

Lemma relation_changed_signals_witness :
  deliver relation_changed leader_hook fresh_world
  = {| local_data := ∅;
       available := true;
       trace := [GetRemote "partition_info"; SetSlurmdAvailable true;
                 Emit slurmd_available] |}.
Proof.
  apply (relation_changed_signals relation_changed leader_hook fresh_world).
  - by left.
  - exists (VStr "{...}"). split; reflexivity.
Defined.







(** ** get_slurmd_info *)

Section query_facts.
Variable json_loads : string -> option value.

Lemma traverse_app {A B} (f : A -> result B) (l1 l2 : list A) :
  traverse f (l1 ++ l2)
  = xs ← traverse f l1; ys ← traverse f l2; Ok (xs ++ ys).
Proof.
  induction l1 as [|x l1 IH]; simpl.
  - by destruct (traverse f l2).
  - destruct (f x) as [y|e]; simpl; [| done]. rewrite IH.
    destruct (traverse f l1) as [xs|e]; simpl; [| done].
    by destruct (traverse f l2).
Qed.

Lemma relations_loop_traverse (relations : list relation) (acc : list value) :
  relations_loop json_loads relations acc
  = out ← traverse (relation_partition json_loads) relations; Ok (acc ++ out).
Proof.
  revert acc. induction relations as [|r rest IH]; intros acc; simpl.
  - by rewrite app_nil_r.
  - destruct (relation_partition json_loads r) as [p|e]; simpl; [| done].
    rewrite IH.
    destruct (traverse (relation_partition json_loads) rest); simpl; [| done].
    by rewrite <- app_assoc.
Qed.

Lemma get_slurmd_info_traverse (relations : list relation) :
  get_slurmd_info json_loads relations
  = traverse (relation_partition json_loads) relations
    ≫= ensure_unique_partitions.
Proof.
  unfold get_slurmd_info. rewrite relations_loop_traverse.
  by destruct (traverse (relation_partition json_loads) relations).
Qed.

(** An exception in the loop over the relations is the outcome of the
    query: the first one, in the order of the relations. *)
Lemma get_slurmd_info_first_raise pre r post e :
  Forall (handled json_loads) pre ->
  relation_partition json_loads r = Raise e ->
  get_slurmd_info json_loads (pre ++ r :: post) = Raise e.
Proof.
  intros Hpre Hr. rewrite get_slurmd_info_traverse.
  destruct (traverse_total _ _ Hpre) as [ps Hps].
  by rewrite (traverse_first_raise _ _ _ _ _ _ Hps Hr).
Qed.

Lemma get_slurmd_info_raise relations :
  Exists (fun r => is_ok (relation_partition json_loads r) = false) relations ->
  exists e, get_slurmd_info json_loads relations = Raise e.
Proof.
  intros Hex. rewrite get_slurmd_info_traverse.
  destruct (traverse_raise _ _ Hex) as [e ->]. by exists e.
Qed.

Lemma units_loop_app (us1 us2 : list (gmap string value)) (acc : list value) :
  units_loop json_loads (us1 ++ us2) acc
  = acc' ← units_loop json_loads us1 acc; units_loop json_loads us2 acc'.
Proof.
  revert acc. induction us1 as [|u us1 IH]; intros acc; simpl; [done |].
  destruct (truthy (data_get u "inventory")); [| apply IH].
  destruct (loads json_loads (data_get u "inventory")); simpl; [apply IH | done].
Qed.

Lemma unparsable_inventory_raises (u : gmap string value)
    (us : list (gmap string value)) (acc : list value) :
  unparsable_inventory json_loads true u ->
  units_loop json_loads (u :: us) acc = Raise JSONDecodeError.
Proof.
  intros (text & Hu & Hne & Hload). simpl. unfold data_get. rewrite Hu. simpl.
  destruct (String.eqb_spec text "") as [->|_]; [by destruct Hne |]. simpl.
  by rewrite Hload.
Qed.

Lemma units_loop_raise (us : list (gmap string value)) (acc : list value) :
  Exists (unparsable_inventory json_loads true) us ->
  exists e, units_loop json_loads us acc = Raise e.
Proof.
  intros Hex. revert acc.
  induction Hex as [u us Hu | u us _ IH]; intros acc.
  - exists JSONDecodeError. by apply unparsable_inventory_raises.
  - simpl. destruct (truthy (data_get u "inventory")); [| apply IH].
    destruct (loads json_loads (data_get u "inventory")) as [n|e]; simpl;
      [apply IH | by exists e].
Qed.

Lemma unparsable_info_raises (r : relation) :
  unparsable_info json_loads r ->
  relation_partition json_loads r = Raise JSONDecodeError.
Proof.
  intros (text & Hinfo & Hload). unfold relation_partition, data_getitem.
  rewrite Hinfo. simpl. by rewrite Hload.
Qed.

Lemma parse_fault_first_raises (r : relation) :
  parse_fault_first json_loads r ->
  relation_partition json_loads r = Raise JSONDecodeError.
Proof.
  intros [Hinfo | (raw & info & before & u & after & nodes & Hraw & Hinfo
                   & Hunits & Hbefore & Hu)].
  - by apply unparsable_info_raises.
  - unfold relation_partition, data_getitem. rewrite Hraw. simpl.
    rewrite Hinfo. simpl. rewrite Hunits, units_loop_app, Hbefore, bind_Ok.
    by rewrite (unparsable_inventory_raises _ _ _ Hu).
Qed.

Lemma missing_info_raises (r : relation) :
  app_data r !! "partition_info" = None ->
  relation_partition json_loads r = Raise KeyError.
Proof.
  intros Hnone. unfold relation_partition, data_getitem. by rewrite Hnone.
Qed.

Lemma unpublished_inventory_skipped (before after : list (gmap string value))
    (u : gmap string value) (acc : list value) :
  unpublished u "inventory" ->
  units_loop json_loads (before ++ u :: after) acc
  = units_loop json_loads (before ++ after) acc.
Proof.
  intros Hu%data_get_falsy. rewrite !units_loop_app.
  destruct (units_loop json_loads before acc); simpl; [| done].
  by rewrite Hu.
Qed.

End query_facts.

(** The query returns partitions whose inventories hold each name once. *)
Lemma get_slurmd_info_unique json_loads (relations : list relation)
    (partitions : list value) :
  get_slurmd_info json_loads relations = Ok partitions ->
  Forall (fun p => exists kept,
            getitem p "inventory" = Ok (VList kept) /\ names_unique kept)
    partitions.
Proof.
  rewrite get_slurmd_info_traverse. intros H. ok_inv H.
  rewrite ensure_unique_partitions_traverse in H.
  apply traverse_Forall2 in H. clear Ha.
  induction H as [|p q ps qs Hpq _ IH]; constructor; [| done].
  apply unique_partition_inv in Hpq
    as (entries & inventory & nodes & kept & -> & _ & _ & Hkept & -> & _).
  exists kept. split.
  - simpl. by rewrite alist_get_set_eq.
  - by eapply unique_nodes_unique.
Qed.

(** When the partitions read from the relations hold inventories of nodes
    with names, the query returns, and each returned partition keeps the
    last entry of every name. *)
Lemma get_slurmd_info_last_wins json_loads (relations : list relation)
    (raw : list value) :
  traverse (relation_partition json_loads) relations = Ok raw ->
  Forall partition_ok raw ->
  exists partitions,
    get_slurmd_info json_loads relations = Ok partitions /\
    Forall2 last_write_wins raw partitions.
Proof.
  intros Hraw Hall. rewrite get_slurmd_info_traverse, Hraw, bind_Ok.
  rewrite ensure_unique_partitions_traverse. clear Hraw.
  induction Hall as [|p raw Hp _ (partitions & Heq & Hlast)]; simpl.
  - exists []. by split; [| constructor].
  - destruct (unique_partition_last_wins p Hp) as (q & Hq & Hpq).
    exists (q :: partitions). rewrite Hq, Heq. by split; [| constructor].
Qed.

(** The scenario of the design document: [n1], reported twice, is once in
    the inventory of [compute], with the entry reported last; [gpu] has an
    empty inventory; both partitions are returned, in the order of their
    relations. *)
Example get_slurmd_info_scenario :
  get_slurmd_info sample_loads [compute_relation; gpu_relation]
  = Ok [ VDict [("partition_name", VStr "compute");
                ("inventory", VList [node "n1" "down"; node "n2" "idle"])];
         VDict [("partition_name", VStr "gpu"); ("inventory", VList [])] ].
Proof. vm_compute. reflexivity. Qed.

(** C9, as stated, fails.  With a relation that has no [partition_info]
    before the one whose [partition_info] is not JSON, the query raises the
    key-lookup error, not the parse error; and an inventory that is the
    empty text, which is not JSON either, is skipped and the query
    returns. *)
Lemma get_slurmd_info_unparsable_counterexample :
  (Exists (unparsable_info sample_loads) [silent_relation; garbled_relation] /\
   get_slurmd_info sample_loads [silent_relation; garbled_relation]
   = Raise KeyError) /\
  (Exists (unparsable_inventory sample_loads false) (units blank_unit_relation) /\
   get_slurmd_info sample_loads [blank_unit_relation]
   = Ok [VDict [("partition_name", VStr "gpu"); ("inventory", VList [])]]).
Proof.
  split; split.
  - right. left. exists "{partition_name: ". split; reflexivity.
  - vm_compute. reflexivity.
  - left. exists "". split; [reflexivity |]. split; [discriminate | reflexivity].
  - vm_compute. reflexivity.
Qed.

(** C9, amended.  When some relation carries a [partition_info] that is
    not JSON, or a unit inventory that is not empty and not JSON, the query
    returns no partitions: it raises an exception.  The exception is the
    parse error when the relations before are handled without one and the
    text that is not JSON is the first thing to go wrong with its
    relation. *)
Theorem get_slurmd_info_unparsable (json_loads : string -> option value) :
  (forall relations,
     Exists (fun r => unparsable_info json_loads r \/
                      Exists (unparsable_inventory json_loads true) (units r))
       relations ->
     exists e, get_slurmd_info json_loads relations = Raise e) /\
  (forall pre r post,
     Forall (handled json_loads) pre ->
     parse_fault_first json_loads r ->
     get_slurmd_info json_loads (pre ++ r :: post) = Raise JSONDecodeError).
Proof.
  split.
  - intros relations Hex. apply get_slurmd_info_raise.
    eapply Exists_impl; [exact Hex |]. intros r [Hinfo | Hunit]; simpl.
    + by rewrite unparsable_info_raises.
    + unfold relation_partition.
      destruct (data_getitem (app_data r) "partition_info"); simpl; [| done].
      destruct (loads json_loads a); simpl; [| done].
      by destruct (units_loop_raise json_loads (units r) [] Hunit) as [e ->].
  - intros pre r post Hpre Hr. apply get_slurmd_info_first_raise; [done |].
    by apply parse_fault_first_raises.
Qed.

Lemma get_slurmd_info_unparsable_witness :
  get_slurmd_info sample_loads
    ([compute_relation] ++ garbled_relation :: [gpu_relation])
  = Raise JSONDecodeError.
Proof.
  apply (proj2 (get_slurmd_info_unparsable sample_loads)).
  - repeat constructor.
  - left. exists "{partition_name: ". split; reflexivity.
Defined.

(** C10, as stated, fails: with a relation whose [partition_info] is not
    JSON before the one that has no [partition_info], the query raises the
    parse error, not the key-lookup error. *)
Lemma get_slurmd_info_missing_counterexample :
  Exists (fun r => app_data r !! "partition_info" = None)
    [garbled_relation; silent_relation] /\
  get_slurmd_info sample_loads [garbled_relation; silent_relation]
  = Raise JSONDecodeError.
Proof.
  split.
  - right. left. reflexivity.
  - vm_compute. reflexivity.
Qed.

(** C10, amended.  When the data of the application of some relation has
    no [partition_info], the query returns no partitions: it raises an
    exception, and neither skips the relation nor defers.  The exception is
    the key-lookup error when the relations before are handled without an
    exception.  A unit whose inventory is absent or empty is skipped: the
    query gives what it gives without the unit. *)
Theorem get_slurmd_info_missing (json_loads : string -> option value) :
  (forall relations,
     Exists (fun r => app_data r !! "partition_info" = None) relations ->
     exists e, get_slurmd_info json_loads relations = Raise e) /\
  (forall pre r post,
     Forall (handled json_loads) pre ->
     app_data r !! "partition_info" = None ->
     get_slurmd_info json_loads (pre ++ r :: post) = Raise KeyError) /\
  (forall rs1 data before unit after rs2,
     unpublished unit "inventory" ->
     get_slurmd_info json_loads
       (rs1 ++ {| app_data := data; units := before ++ unit :: after |} :: rs2)
     = get_slurmd_info json_loads
         (rs1 ++ {| app_data := data; units := before ++ after |} :: rs2)).
Proof.
  split; [| split].
  - intros relations Hex. apply get_slurmd_info_raise.
    eapply Exists_impl; [exact Hex |]. intros r Hr. simpl.
    by rewrite missing_info_raises.
  - intros pre r post Hpre Hr. apply get_slurmd_info_first_raise; [done |].
    by apply missing_info_raises.
  - intros rs1 data before unit after rs2 Hunit.
    rewrite !get_slurmd_info_traverse, !traverse_app. simpl.
    unfold relation_partition at 2 5. simpl.
    by rewrite (unpublished_inventory_skipped _ _ _ _ _ Hunit).
Qed.

Lemma get_slurmd_info_missing_witness :
  get_slurmd_info sample_loads
    ([compute_relation] ++ silent_relation :: [gpu_relation])
  = Raise KeyError.
Proof.
  apply (proj1 (proj2 (get_slurmd_info_missing sample_loads))).
  - repeat constructor.
  - reflexivity.
Defined.

(** * Further properties *)

(** ** The order and the size of the unique nodes *)

Lemma alist_set_twice {K V} `{EqDecision K} (k : K) (v v' : V)
    (d : list (K * V)) :
  alist_set k v (alist_set k v' d) = alist_set k v d.
Proof.
  induction d as [|[k2 v2] d IH]; simpl.
  - by rewrite decide_True.
  - destruct (decide (k2 = k)) as [->|Hne]; simpl.
    + by rewrite decide_True.
    + by rewrite decide_False, IH.
Qed.

Lemma alist_set_same {K V} `{EqDecision K} (k : K) (v : V) (d : list (K * V)) :
  alist_get k d = Some v -> alist_set k v d = d.
Proof.
  induction d as [|[k2 v2] d IH]; simpl; [done |].
  destruct (decide (k2 = k)) as [->|Hne].
  - by intros [= ->].
  - intros Hget. by rewrite IH.
Qed.

Lemma dict_of_nodes_app (before after : list value) (acc : list (hkey * value)) :
  dict_of_nodes (before ++ after) acc
  = d ← dict_of_nodes before acc; dict_of_nodes after d.
Proof.
  revert acc. induction before as [|x before IH]; intros acc; simpl; [done |].
  destruct (node_key x) as [k|e]; simpl; [apply IH | done].
Qed.

Lemma dict_of_nodes_names (inventory : list value) (acc d : list (hkey * value)) :
  dict_of_nodes inventory acc = Ok d ->
  exists names, traverse node_key inventory = Ok names.
Proof.
  revert acc. induction inventory as [|x rest IH]; intros acc Hd; simpl in *.
  - by eexists.
  - ok_inv Hd. rewrite Ha. simpl. destruct (IH _ Hd) as [names ->].
    by eexists.
Qed.

(** The keys of the dictionary, in its order: those it had, then the new
    names in the order in which each is first seen. *)
Lemma dict_of_nodes_keys (inventory : list value) (acc d : list (hkey * value))
    (names : list hkey) :
  dict_of_nodes inventory acc = Ok d ->
  traverse node_key inventory = Ok names ->
  d.*1 = acc.*1 ++ filter (fun k => k ∉ acc.*1) (first_seen names).
Proof.
  revert acc names.
  induction inventory as [|x rest IH]; intros acc names Hd Hnames; simpl in *.
  - inversion Hd; inversion Hnames; subst. by rewrite app_nil_r.
  - ok_inv Hd. rename a into kx. rewrite Ha in Hnames. simpl in Hnames.
    ok_inv Hnames. rename a into names'. inversion Hnames; subst.
    rewrite (IH _ _ Hd Ha0), alist_set_keys. cbn [first_seen].
    destruct (decide (kx ∈ acc.*1)) as [Hin|Hout].
    + rewrite filter_cons_False by (intros Hn; by apply Hn).
      f_equal. rewrite list_filter_filter. apply list_filter_iff.
      intros k. split; [| tauto]. intros Hk. split; [done |].
      intros ->. by apply Hk.
    + rewrite filter_cons_True by done. rewrite <- app_assoc. simpl.
      do 2 f_equal. rewrite list_filter_filter. apply list_filter_iff.
      intros k. rewrite not_elem_of_app, list_elem_of_singleton. tauto.
Qed.

Lemma keyed_entries_names (d : list (hkey * value)) :
  (forall k n, (k, n) ∈ d -> node_key n = Ok k) ->
  traverse node_key d.*2 = Ok d.*1.
Proof.
  induction d as [|[k n] d IH]; intros Hkeys; [done |].
  rewrite !fmap_cons. cbn [traverse fst snd].
  rewrite (Hkeys k n) by left. simpl. rewrite IH; [done |].
  intros k' n' Hin. apply Hkeys. by right.
Qed.

Lemma filter_all {A} (P : A -> Prop) `{!forall x, Decision (P x)} (l : list A) :
  (forall x, P x) -> filter P l = l.
Proof.
  intros HP. induction l as [|x l IH]; [done |].
  by rewrite filter_cons_True, IH.
Qed.

Lemma dict_of_nodes_entries (inventory : list value) (d : list (hkey * value)) :
  dict_of_nodes inventory [] = Ok d ->
  NoDup d.*1 /\ traverse node_key d.*2 = Ok d.*1.
Proof.
  intros Hd.
  assert (Hnd : NoDup d.*1).
  { eapply dict_of_nodes_NoDup; [done |]. constructor. }
  split; [done |]. apply keyed_entries_names.
  intros k n Hin. apply list_elem_of_lookup in Hin as [i Hi].
  apply (last_named_key k inventory).
  pose proof (dict_of_nodes_get _ _ _ Hd k) as Hget. simpl in Hget.
  rewrite (alist_get_lookup _ _ _ _ Hnd Hi) in Hget.
  by destruct (last_named k inventory).
Qed.

(** X7. The unique nodes come in the order in which their names are first
    seen in the inventory (each with the entry seen last, by C1): the names
    of the list returned are the distinct names of the inventory in the
    order of first occurrence. *)
Theorem unique_nodes_first_seen (inventory kept : list value) :
  unique_nodes inventory = Ok kept ->
  exists names,
    traverse node_key inventory = Ok names /\
    traverse node_key kept = Ok (first_seen names).
Proof.
  unfold unique_nodes. intros Hu. ok_inv Hu. rename a into d.
  inversion Hu; subst; clear Hu.
  destruct (dict_of_nodes_names _ _ _ Ha) as [names Hnames].
  exists names. split; [done |].
  pose proof (dict_of_nodes_keys _ _ _ _ Ha Hnames) as Hkeys. simpl in Hkeys.
  rewrite filter_all in Hkeys by (intros k; apply not_elem_of_nil).
  rewrite <- Hkeys. by apply (dict_of_nodes_entries inventory).
Qed.

Lemma unique_nodes_first_seen_witness :
  exists names,
    traverse node_key
      [node "n1" "old"; node "n2" "idle"; node "n1" "stale"; node "n1" "new"]
    = Ok names /\
    traverse node_key [node "n1" "new"; node "n2" "idle"]
    = Ok (first_seen names).
Proof.
  apply (unique_nodes_first_seen
           [node "n1" "old"; node "n2" "idle"; node "n1" "stale";
            node "n1" "new"]).
  reflexivity.
Defined.

(** X8. The list of unique nodes has no entry that the inventory has not,
    has no entry twice, and is never longer than the inventory. *)
Theorem unique_nodes_no_growth (inventory kept : list value) :
  unique_nodes inventory = Ok kept ->
  (forall n, n ∈ kept -> n ∈ inventory) /\
  NoDup kept /\
  length kept <= length inventory.
Proof.
  intros Hu.
  assert (Hsub : forall n, n ∈ kept -> n ∈ inventory).
  { intros n (k & before & after & _ & -> & _)%(unique_nodes_last _ _ _ Hu).
    apply elem_of_app. right. by left. }
  assert (Hnd : NoDup kept).
  { apply NoDup_alt. intros i j n Hi Hj.
    assert (n ∈ kept) as (k & _ & _ & Hk & _)%(unique_nodes_last _ _ _ Hu)
      by (apply list_elem_of_lookup; eauto).
    by eapply (unique_nodes_unique _ _ Hu). }
  split; [done |]. split; [done |].
  apply submseteq_length. by apply NoDup_submseteq.
Qed.

Lemma unique_nodes_no_growth_witness :
  (forall n, n ∈ [node "n1" "new"; node "n2" "idle"] ->
     n ∈ [node "n1" "old"; node "n2" "idle"; node "n1" "new"]) /\
  NoDup [node "n1" "new"; node "n2" "idle"] /\
  length [node "n1" "new"; node "n2" "idle"]
  <= length [node "n1" "old"; node "n2" "idle"; node "n1" "new"].
Proof.
  apply (unique_nodes_no_growth
           [node "n1" "old"; node "n2" "idle"; node "n1" "new"]).
  reflexivity.
Defined.

(** ** Partitions returned as they are, and partitions refused *)

Lemma unique_nodes_distinct (inventory : list value) (names : list hkey) :
  traverse node_key inventory = Ok names -> NoDup names ->
  unique_nodes inventory = Ok inventory.
Proof.
  intros Hnames Hnd. pose proof (traverse_length _ _ _ Hnames) as Hlen.
  pose proof (traverse_Forall2 _ _ _ Hnames) as Hall.
  unfold unique_nodes.
  rewrite <- (snd_zip names inventory) at 1 by lia.
  rewrite (dict_of_nodes_fresh (zip names inventory) []).
  - simpl. by rewrite snd_zip by lia.
  - simpl. by rewrite fst_zip by lia.
  - intros k n [i Hi]%list_elem_of_lookup.
    apply lookup_zip_Some in Hi as [Hk Hn].
    destruct (Forall2_lookup_l _ _ _ _ _ Hall Hn) as (k' & Hk' & Hkey).
    congruence.
Qed.

Lemma unique_partition_fixed (partition : value) :
  unique_partition partition = Ok partition <-> already_unique partition.
Proof.
  split.
  - intros Hp. pose proof (unique_partition_inv _ _ Hp)
      as (entries & inventory & nodes & kept & -> & Hget & Hiter & Hkept
          & Heq & _).
    assert (Hent : alist_set "inventory" (VList kept) entries = entries)
      by congruence.
    pose proof (alist_get_set_eq "inventory" (VList kept) entries) as Hget'.
    rewrite Hent, Hget in Hget'. inversion Hget'; subst. simpl in Hiter.
    inversion Hiter; subst.
    unfold unique_nodes in Hkept. ok_inv Hkept. rename a into d.
    destruct (dict_of_nodes_entries _ _ Ha) as [Hnd Hnames].
    assert (d.*2 = nodes) as Hd by (by inversion Hkept). rewrite Hd in Hnames.
    by exists entries, nodes, d.*1.
  - intros (entries & inventory & names & -> & Hget & Hnames & Hnd).
    unfold unique_partition. simpl. rewrite Hget. simpl.
    rewrite (unique_nodes_distinct _ _ Hnames Hnd). simpl.
    by rewrite alist_set_same.
Qed.

(** X9. [ensure_unique_partitions] returns the very list it is given
    exactly when every partition of the list is a record whose inventory is
    a list of nodes with names that are all different. *)
Theorem ensure_unique_partitions_fixed (partitions : list value) :
  ensure_unique_partitions partitions = Ok partitions
  <-> Forall already_unique partitions.
Proof.
  rewrite ensure_unique_partitions_traverse. split.
  - intros H%traverse_Forall2.
    induction partitions as [|p ps IH]; [constructor |].
    apply Forall2_cons in H as [Hp Hps]. constructor; [| by apply IH].
    by apply unique_partition_fixed.
  - intros Hall. apply Forall2_traverse.
    induction Hall as [|p ps Hp _ IH]; constructor; [| done].
    by apply unique_partition_fixed.
Qed.

(** X10. An inventory that is not a list is refused with [TypeError],
    whether it cannot be iterated ([None], a boolean, a number) or its items
    cannot be indexed by a name (the characters of a text, the keys of a
    dictionary); only the empty text and the empty dictionary pass, and
    they become the empty list. *)
Theorem unique_partition_not_a_list (entries : list (string * value))
    (inventory : value) :
  alist_get "inventory" entries = Some inventory ->
  (forall items, inventory <> VList items) ->
  unique_partition (VDict entries)
  = match inventory with
    | VStr EmptyString | VDict [] =>
        Ok (VDict (alist_set "inventory" (VList []) entries))
    | _ => Raise TypeError
    end.
Proof.
  intros Hget Hlist. unfold unique_partition. simpl. rewrite Hget. simpl.
  destruct inventory as [| b | n | s | items | d]; try done.
  - by destruct s.
  - by destruct (Hlist items).
  - by destruct d as [|[k v] d].
Qed.

Lemma unique_partition_not_a_list_witness :
  unique_partition (VDict [("inventory", VStr "n1"); ("name", VStr "p")])
  = Raise TypeError.
Proof.
  apply (unique_partition_not_a_list
           [("inventory", VStr "n1"); ("name", VStr "p")] (VStr "n1"));
    [reflexivity | discriminate].
Defined.

Lemma node_key_raises (n : value) (e : exn) :
  node_key n = Raise e ->
  (e = KeyError \/ e = TypeError) /\
  (e = KeyError <->
   exists fields, n = VDict fields /\ alist_get "node_name" fields = None).
Proof.
  unfold node_key. destruct n as [| b | z | s | items | fields]; simpl;
    try (intros [= <-]; split; [by right |];
         split; [done | by intros (? & ? & _)]).
  destruct (alist_get "node_name" fields) as [name|] eqn:Hget; simpl.
  - destruct name; simpl; try done; intros [= <-];
      (split; [by right |]; split; [done |]);
      intros (f & [= <-] & Hnone); congruence.
  - intros [= <-]. split; [by left |]. split; [| done]. intros _. by eexists.
Qed.

(** X3. The first node that has no usable name decides the outcome: when
    the partitions before are made unique without an exception and the
    nodes before it in its inventory have names, the function raises the
    exception of that node, [KeyError] when the node is a record without
    [node_name] and [TypeError] otherwise (the node is not a record, or its
    name is a list or a dictionary). *)
Theorem ensure_unique_partitions_first_bad_node
    (pre post : list value) (p : value) (before after : list value)
    (n : value) (e : exn) :
  Forall (fun q => is_ok (unique_partition q) = true) pre ->
  getitem p "inventory" = Ok (VList (before ++ n :: after)) ->
  Forall keyed before ->
  node_key n = Raise e ->
  ensure_unique_partitions (pre ++ p :: post) = Raise e /\
  (e = KeyError \/ e = TypeError) /\
  (e = KeyError <->
   exists fields, n = VDict fields /\ alist_get "node_name" fields = None).
Proof.
  intros Hpre Hget Hbefore Hn. split; [| by apply node_key_raises].
  rewrite ensure_unique_partitions_traverse.
  destruct (traverse_total _ _ Hpre) as [qs Hqs].
  apply (traverse_first_raise _ _ _ _ _ _ Hqs).
  unfold unique_partition. rewrite Hget. simpl. unfold unique_nodes.
  rewrite dict_of_nodes_app.
  destruct (dict_of_nodes_total before [] Hbefore) as [d ->]. simpl.
  by rewrite Hn.
Qed.

Lemma ensure_unique_partitions_first_bad_node_witness :
  ensure_unique_partitions
    (sample_unique ++
     VDict [("inventory", VList ([node "n1" "idle"] ++ VDict [] :: []))] :: [])
  = Raise KeyError.
Proof.
  apply (ensure_unique_partitions_first_bad_node sample_unique []
           (VDict [("inventory", VList ([node "n1" "idle"] ++ VDict [] :: []))])
           [node "n1" "idle"] [] (VDict []) KeyError).
  - repeat constructor.
  - reflexivity.
  - repeat constructor.
  - reflexivity.
Defined.

(** X5. The partitions are made unique one by one, none in view of
    another: the function on a list in two parts is the function on each
    part, the results joined, the exception of the first part first. *)
Theorem ensure_unique_partitions_app (ps1 ps2 : list value) :
  ensure_unique_partitions (ps1 ++ ps2)
  = qs1 ← ensure_unique_partitions ps1;
    qs2 ← ensure_unique_partitions ps2;
    Ok (qs1 ++ qs2).
Proof. rewrite !ensure_unique_partitions_traverse. apply traverse_app. Qed.

Lemma ensure_unique_partitions_fixed_witness :
  ensure_unique_partitions sample_unique = Ok sample_unique.
Proof.
  apply (proj2 (ensure_unique_partitions_fixed sample_unique)).
  repeat constructor.
  - eexists _, _, [KStr "n1"; KStr "n2"].
    repeat split; [reflexivity .. |].
    apply NoDup_cons. split; [| apply NoDup_singleton].
    intros Hin%list_elem_of_singleton. discriminate.
  - eexists _, _, []. repeat split; [reflexivity .. | constructor].
Defined.

(** ** The query as a whole *)

Section query_more.
Variable json_loads : string -> option value.

(** The loop over the units parses the inventories that are published, in
    the order of the units. *)
Lemma units_loop_traverse (us : list (gmap string value)) (acc : list value) :
  units_loop json_loads us acc
  = nodes ← traverse (loads json_loads) (published_inventories us);
    Ok (acc ++ nodes).
Proof.
  unfold published_inventories. revert acc.
  induction us as [|u us IH]; intros acc.
  - simpl. by rewrite app_nil_r.
  - cbn [units_loop]. rewrite fmap_cons, filter_cons.
    destruct (truthy (data_get u "inventory")) eqn:Hinv.
    + rewrite decide_True by done. cbn [traverse].
      destruct (loads json_loads (data_get u "inventory")) as [n|e]; simpl;
        [| done].
      rewrite IH.
      destruct (traverse (loads json_loads) _) as [nodes|e]; simpl; [| done].
      by rewrite <- app_assoc.
    + rewrite decide_False by done. apply IH.
Qed.

(** When the relation is handled: its [partition_info] is the text of an
    object and the inventories published by its units are JSON. *)
Lemma relation_partition_Ok (r : relation) (q : value) :
  relation_partition json_loads r = Ok q <->
  exists text entries nodes,
    app_data r !! "partition_info" = Some (VStr text) /\
    json_loads text = Some (VDict entries) /\
    traverse (loads json_loads) (published_inventories (units r)) = Ok nodes /\
    q = VDict (alist_set "inventory" (VList nodes) entries).
Proof.
  unfold relation_partition, data_getitem. rewrite units_loop_traverse. split.
  - destruct (app_data r !! "partition_info") as [raw|]; simpl; [| done].
    destruct raw as [| | | text | |]; simpl; try done.
    destruct (json_loads text) as [info|] eqn:Hinfo; simpl; [| done].
    destruct (traverse (loads json_loads) _) as [nodes|e]; simpl; [| done].
    destruct info as [| | | | |entries]; simpl; try done.
    intros [= <-]. by exists text, entries, nodes.
  - intros (text & entries & nodes & -> & Hinfo & -> & ->). simpl.
    by rewrite Hinfo.
Qed.

(** The values of a dictionary without a repeated key, read by its
    keys. *)
Lemma alist_values {K V} `{EqDecision K} (d : list (K * V)) :
  NoDup d.*1 -> Some <$> d.*2 = (fun k => alist_get k d) <$> d.*1.
Proof.
  induction d as [|[k v] d IH]; intros Hnd; [done |].
  rewrite fmap_cons in Hnd. apply NoDup_cons in Hnd as [Hk Hnd].
  rewrite !fmap_cons. cbn [fst snd alist_get]. rewrite decide_True by done.
  f_equal. rewrite (IH Hnd). apply Forall_fmap_ext_1, Forall_forall.
  intros k' Hk'. simpl. rewrite decide_False; [done |]. by intros ->.
Qed.

(** What the dictionary of the nodes gives, said without it: for each
    distinct name, in the order in which the names are first seen, the last
    node of the name. *)
Lemma unique_nodes_spec (nodes kept : list value) :
  unique_nodes nodes = Ok kept <->
  exists names,
    traverse node_key nodes = Ok names /\
    Some <$> kept = (fun k => last_named k nodes) <$> first_seen names.
Proof.
  assert (Hto : forall kept', unique_nodes nodes = Ok kept' ->
    exists names,
      traverse node_key nodes = Ok names /\
      Some <$> kept' = (fun k => last_named k nodes) <$> first_seen names).
  { intros kept'. unfold unique_nodes. intros Hu. ok_inv Hu. rename a into d.
    inversion Hu; subst; clear Hu.
    destruct (dict_of_nodes_names _ _ _ Ha) as [names Hnames].
    exists names. split; [done |].
    pose proof (dict_of_nodes_keys _ _ _ _ Ha Hnames) as Hkeys.
    simpl in Hkeys.
    rewrite filter_all in Hkeys by (intros k; apply not_elem_of_nil).
    destruct (dict_of_nodes_entries _ _ Ha) as [Hnd _].
    change (map snd d) with (d.*2).
    rewrite (alist_values d Hnd), Hkeys.
    apply Forall_fmap_ext_1, Forall_forall. intros k _.
    rewrite (dict_of_nodes_get _ _ _ Ha k). simpl.
    by destruct (last_named k nodes). }
  split; [apply Hto |].
  intros (names & Hnames & Hkept).
  destruct (unique_nodes_total nodes) as [kept' Hkept'].
  { apply traverse_Forall2 in Hnames. clear -Hnames.
    induction Hnames as [|n k ns ks Hnk _ IH]; constructor; [| done].
    unfold keyed. by rewrite Hnk. }
  destruct (Hto _ Hkept') as (names' & Hnames' & Heq).
  rewrite Hnames in Hnames'. inversion Hnames'; subst names'.
  rewrite <- Hkept in Heq. apply (inj (fmap Some)) in Heq. by subst.
Qed.

Lemma query_partition_of (r : relation) (p : value) :
  (exists q, relation_partition json_loads r = Ok q /\
             unique_partition q = Ok p)
  <-> partition_of json_loads r p.
Proof.
  split.
  - intros (q & (text & entries & nodes & Hraw & Hinfo & Hnodes & ->)
              %relation_partition_Ok & Hp).
    unfold unique_partition in Hp. simpl in Hp.
    rewrite alist_get_set_eq in Hp. simpl in Hp.
    destruct (unique_nodes nodes) as [kept|e] eqn:Hkept; simpl in Hp;
      [| done].
    rewrite alist_set_twice in Hp. inversion Hp; subst.
    apply unique_nodes_spec in Hkept as (names & Hnames & Hkept).
    by exists text, entries, nodes, names, kept.
  - intros (text & entries & nodes & names & kept & Hraw & Hinfo & Hnodes
            & Hnames & Hkept & ->).
    assert (Hu : unique_nodes nodes = Ok kept)
      by (apply unique_nodes_spec; by exists names).
    exists (VDict (alist_set "inventory" (VList nodes) entries)). split.
    + apply relation_partition_Ok. by exists text, entries, nodes.
    + unfold unique_partition. simpl. rewrite alist_get_set_eq. simpl.
      rewrite Hu. simpl. by rewrite alist_set_twice.
Qed.

(** X1. The query returns exactly when every relation carries a
    [partition_info] that is the text of a JSON object and unit inventories
    that are JSON texts of nodes with names, and it then returns one
    partition for each relation, in the order of the relations: the object
    published, holding under [inventory] (whatever it held there), for each
    distinct name of the nodes published by the units of the relation, in
    the order in which the names are first seen, the last node published
    under the name. *)
Theorem get_slurmd_info_returns (relations : list relation)
    (partitions : list value) :
  get_slurmd_info json_loads relations = Ok partitions
  <-> Forall2 (partition_of json_loads) relations partitions.
Proof.
  rewrite get_slurmd_info_traverse. split.
  - intros H. ok_inv H. rename a into raw.
    rewrite ensure_unique_partitions_traverse in H.
    apply traverse_Forall2 in Ha, H. revert partitions H.
    induction Ha as [|r q rs qs Hrq _ IH]; intros partitions H.
    + inversion H. constructor.
    + destruct partitions as [|p ps]; [by inversion H |].
      apply Forall2_cons in H as [Hqp Hps]. constructor; [| by apply IH].
      apply query_partition_of. by exists q.
  - intros Hall.
    assert (exists raw,
      Forall2 (fun r q => relation_partition json_loads r = Ok q) relations raw
      /\ Forall2 (fun q p => unique_partition q = Ok p) raw partitions)
      as (raw & Hraw & Hps).
    { induction Hall as [|r p rs ps Hrp _ (raw & Hraw & Hps)].
      - exists []. split; constructor.
      - apply query_partition_of in Hrp as (q & Hq & Hp).
        exists (q :: raw). split; by constructor. }
    rewrite (Forall2_traverse _ _ _ Hraw). simpl.
    rewrite ensure_unique_partitions_traverse. by apply Forall2_traverse.
Qed.

(** X6. The query over two lists of relations put together returns exactly
    when it returns over each, and returns the partitions of the first
    followed by those of the second: a node name is made unique within its
    relation only. *)
Theorem get_slurmd_info_app (rs1 rs2 : list relation) (partitions : list value) :
  get_slurmd_info json_loads (rs1 ++ rs2) = Ok partitions
  <-> exists ps1 ps2,
        get_slurmd_info json_loads rs1 = Ok ps1 /\
        get_slurmd_info json_loads rs2 = Ok ps2 /\
        partitions = ps1 ++ ps2.
Proof.
  rewrite !get_slurmd_info_traverse, traverse_app. split.
  - intros H. ok_inv H. ok_inv Ha. ok_inv Ha. inversion Ha; subst; clear Ha.
    rewrite ensure_unique_partitions_traverse, traverse_app in H.
    ok_inv H. ok_inv H. inversion H; subst.
    exists a, a2. rewrite Ha0, Ha1. simpl.
    by rewrite !ensure_unique_partitions_traverse.
  - intros (ps1 & ps2 & H1 & H2 & ->). ok_inv H1. ok_inv H2.
    rewrite Ha, Ha0. simpl.
    rewrite ensure_unique_partitions_traverse, traverse_app.
    rewrite ensure_unique_partitions_traverse in H1, H2.
    by rewrite H1, H2.
Qed.

(** X2. A [partition_info] that is JSON but not an object is refused with
    [TypeError] once the inventories of the units of its relation are
    parsed, when the relations before are handled without an exception. *)
Theorem get_slurmd_info_not_an_object (pre post : list relation)
    (r : relation) (text : string) (info : value) :
  Forall (handled json_loads) pre ->
  app_data r !! "partition_info" = Some (VStr text) ->
  json_loads text = Some info ->
  (forall entries, info <> VDict entries) ->
  is_ok (units_loop json_loads (units r) []) = true ->
  get_slurmd_info json_loads (pre ++ r :: post) = Raise TypeError.
Proof.
  intros Hpre Hraw Hinfo Hobj Hunits.
  apply get_slurmd_info_first_raise; [done |].
  unfold relation_partition, data_getitem. rewrite Hraw. simpl.
  rewrite Hinfo. simpl.
  destruct (units_loop json_loads (units r) []); [| done]. simpl.
  destruct info; try done. by destruct (Hobj entries).
Qed.

(** X16. [is_joined] is false exactly when there is no relation, and the
    query then returns the empty list; whenever the query returns, it
    returns as many partitions as [_num_relations] counts, so some
    partition exactly when [is_joined]. *)
Theorem is_joined_partitions (relations : list relation) :
  (is_joined relations = false <-> relations = []) /\
  (is_joined relations = false ->
   get_slurmd_info json_loads relations = Ok []) /\
  (forall partitions,
     get_slurmd_info json_loads relations = Ok partitions ->
     length partitions = _num_relations relations /\
     (is_joined relations = true <-> partitions <> [])).
Proof.
  assert (Hjoined : is_joined relations = false <-> relations = []).
  { unfold is_joined, _num_relations. by destruct relations. }
  split; [done |]. split.
  - intros ->%Hjoined. reflexivity.
  - intros partitions. rewrite get_slurmd_info_traverse. intros H. ok_inv H.
    rewrite ensure_unique_partitions_traverse in H.
    apply traverse_length in Ha, H. unfold is_joined, _num_relations.
    split; [congruence |].
    destruct relations, partitions; simpl in *; try done; try congruence.
Qed.

End query_more.

Lemma get_slurmd_info_returns_witness :
  Forall2 (partition_of sample_loads) [compute_relation; gpu_relation]
    [ VDict [("partition_name", VStr "compute");
             ("inventory", VList [node "n1" "down"; node "n2" "idle"])];
      VDict [("partition_name", VStr "gpu"); ("inventory", VList [])] ].
Proof.
  apply (proj1 (get_slurmd_info_returns sample_loads
                  [compute_relation; gpu_relation] _)).
  vm_compute. reflexivity.
Defined.

Lemma get_slurmd_info_app_witness :
  exists ps1 ps2,
    get_slurmd_info sample_loads [compute_relation] = Ok ps1 /\
    get_slurmd_info sample_loads [gpu_relation] = Ok ps2 /\
    [ VDict [("partition_name", VStr "compute");
             ("inventory", VList [node "n1" "down"; node "n2" "idle"])];
      VDict [("partition_name", VStr "gpu"); ("inventory", VList [])] ]
    = ps1 ++ ps2.
Proof.
  apply (proj1 (get_slurmd_info_app sample_loads
                  [compute_relation] [gpu_relation] _)).
  vm_compute. reflexivity.
Defined.

Lemma get_slurmd_info_not_an_object_witness :
  get_slurmd_info sample_loads
    ([compute_relation] ++ listed_relation :: [gpu_relation])
  = Raise TypeError.
Proof.
  apply (get_slurmd_info_not_an_object sample_loads [compute_relation]
           [gpu_relation] listed_relation "[]" (VList [])).
  - repeat constructor.
  - reflexivity.
  - reflexivity.
  - discriminate.
  - reflexivity.
Defined.

Lemma is_joined_partitions_witness :
  get_slurmd_info sample_loads [] = Ok [].
Proof.
  apply (proj1 (proj2 (is_joined_partitions sample_loads []))).
  reflexivity.
Defined.

(** X17. The partitions the query returns are unique already: each is a
    record whose inventory is a list of nodes with names all different, and
    [ensure_unique_partitions] returns them as they are. *)
Theorem get_slurmd_info_already_unique (json_loads : string -> option value)
    (relations : list relation) (partitions : list value) :
  get_slurmd_info json_loads relations = Ok partitions ->
  Forall already_unique partitions /\
  ensure_unique_partitions partitions = Ok partitions.
Proof.
  rewrite get_slurmd_info_traverse. intros H. ok_inv H. clear Ha.
  rewrite ensure_unique_partitions_traverse in *.
  apply traverse_Forall2 in H.
  assert (Hfix : Forall2 (fun p q => unique_partition p = Ok q)
                   partitions partitions).
  { induction H as [|q p qs ps Hqp _ IH]; constructor; [| done].
    by eapply unique_partition_idem. }
  split; [| by apply Forall2_traverse].
  clear H. induction partitions as [|p ps IH]; [constructor |].
  apply Forall2_cons in Hfix as [Hp Hps]. constructor; [| by apply IH].
  by apply unique_partition_fixed.
Qed.

Lemma get_slurmd_info_already_unique_witness :
  Forall already_unique
    [ VDict [("partition_name", VStr "compute");
             ("inventory", VList [node "n1" "down"; node "n2" "idle"])];
      VDict [("partition_name", VStr "gpu"); ("inventory", VList [])] ] /\
  ensure_unique_partitions
    [ VDict [("partition_name", VStr "compute");
             ("inventory", VList [node "n1" "down"; node "n2" "idle"])];
      VDict [("partition_name", VStr "gpu"); ("inventory", VList [])] ]
  = Ok [ VDict [("partition_name", VStr "compute");
                ("inventory", VList [node "n1" "down"; node "n2" "idle"])];
         VDict [("partition_name", VStr "gpu"); ("inventory", VList [])] ].
Proof.
  apply (get_slurmd_info_already_unique sample_loads
           [compute_relation; gpu_relation]).
  vm_compute. reflexivity.
Defined.


(** ** Properties of the handlers *)

Lemma flag_after_app (start : bool) (ns ms : list notification) :
  flag_after start (ns ++ ms) = flag_after (flag_after start ns) ms.
Proof.
  unfold flag_after. destruct ms as [|m ms _] using rev_ind.
  - rewrite app_nil_r. simpl. by destruct (last ns) as [[]|].
  - rewrite app_assoc, !last_snoc. done.
Qed.

Lemma flag_after_again (start : bool) (ns : list notification) :
  flag_after (flag_after start ns) ns = flag_after start ns.
Proof. unfold flag_after. by destruct (last ns) as [[]|]. Qed.

Lemma emitted_app (acts acts' : list action) :
  emitted (acts ++ acts') = emitted acts ++ emitted acts'.
Proof. unfold emitted. apply omap_app. Qed.

(** What the data holds after some writes depends on what it held under
    the keys that are not written only. *)
Lemma assigned_all_ext (ws : list (string * value))
    (data data' : gmap string value) :
  (forall k, k ∉ ws.*1 -> data !! k = data' !! k) ->
  assigned_all ws data = assigned_all ws data'.
Proof.
  unfold assigned_all. revert data data'.
  induction ws as [|[k0 v0] ws IH]; intros data data' Hout.
  - apply map_eq. intros k. apply Hout, not_elem_of_nil.
  - cbn [foldl]. apply IH. intros k Hk. simpl. rewrite !lookup_assigned.
    case_decide as Hk0; [done |]. apply Hout.
    rewrite fmap_cons, not_elem_of_cons. split; [simpl; congruence | done].
Qed.

Lemma assigned_all_again (ws : list (string * value))
    (data : gmap string value) :
  assigned_all ws (assigned_all ws data) = assigned_all ws data.
Proof. apply assigned_all_ext. intros k Hk. by apply assigned_all_frame. Qed.

(** X11. Every handler can be run again: a second delivery of the same
    event that finds what the first found leaves the relation data and the
    availability flag as the first left them. *)
Theorem deliver_again (ev : lifecycle) (h : hook) (w : world) :
  local_data (deliver ev h (deliver ev h w)) = local_data (deliver ev h w) /\
  available (deliver ev h (deliver ev h w)) = available (deliver ev h w).
Proof.
  rewrite !deliver_data, !deliver_flag. split.
  - apply assigned_all_again.
  - apply flag_after_again.
Qed.

(** X12. A delivery that defers has done nothing else: it wrote no
    relation data, did not touch the availability flag and emitted nothing.
    The handler of peer-left never defers. *)
Theorem deferral_changes_nothing (ev : lifecycle) (h : hook) (w : world) :
  Defer ∈ performed ev h w ->
  ev <> relation_broken /\
  local_data (deliver ev h w) = local_data w /\
  available (deliver ev h w) = available w /\
  writes (performed ev h w) = [] /\
  emitted (performed ev h w) = [].
Proof.
  rewrite performed_actions, deliver_data, deliver_flag.
  unfold actions_of, publish_actions. intros Hin%list_elem_of_In.
  destruct ev; handler_cases h; simpl in Hin;
    try (exfalso; intuition discriminate); repeat split; done.
Qed.

Lemma deferral_changes_nothing_witness :
  relation_created <> relation_broken /\
  local_data (deliver relation_created early_hook fresh_world)
  = local_data fresh_world /\
  available (deliver relation_created early_hook fresh_world)
  = available fresh_world /\
  writes (performed relation_created early_hook fresh_world) = [] /\
  emitted (performed relation_created early_hook fresh_world) = [].
Proof.
  apply (deferral_changes_nothing relation_created early_hook fresh_world).
  apply list_elem_of_In. simpl. tauto.
Defined.

(** X13. After any sequence of deliveries the availability flag is the one
    of the last notification emitted: true after [slurmd_available], false
    after [slurmd_unavailable], and as it was when none was emitted. *)
Theorem flag_follows_notifications (evs : list (lifecycle * hook)) (w : world) :
  available (deliver_all evs w)
  = flag_after (available w) (emitted (performed_all evs w)).
Proof.
  revert w. induction evs as [|[ev h] evs IH]; intros w.
  - unfold performed_all. simpl. by rewrite drop_all.
  - rewrite performed_all_cons, emitted_app, flag_after_app.
    cbn [deliver_all]. by rewrite IH, deliver_flag.
Qed.

(** X14. No sequence of deliveries changes what the relation data holds
    under a key other than [munge_key], [slurmctld_host] and
    [slurmctld_port]. *)
Theorem deliveries_frame (evs : list (lifecycle * hook)) (w : world)
    (k : string) :
  k <> "munge_key" -> k <> "slurmctld_host" -> k <> "slurmctld_port" ->
  local_data (deliver_all evs w) !! k = local_data w !! k.
Proof.
  intros H1 H2 H3. revert w.
  induction evs as [|[ev h] evs IH]; intros w; [done |].
  cbn [deliver_all]. rewrite IH, deliver_data. apply assigned_all_frame.
  intros Hin%written_keys. tauto.
Qed.

Lemma deliveries_frame_witness :
  local_data (deliver_all sample_deliveries settled_world) !! "egress-subnets"
  = local_data settled_world !! "egress-subnets".
Proof.
  apply (deliveries_frame sample_deliveries settled_world "egress-subnets");
    discriminate.
Defined.

(** X15. After a peer-joined transition that published, on the leader and
    with texts, and a peer-left transition, the host and the port are still
    in the relation data as published; the munge key is unset when the unit
    that handled peer-left is the leader and is still the key published when
    it is not; the flag is false. *)
Theorem created_then_broken (hc hb : hook) (w : world)
    (key host p : string) :
  is_slurm_installed (the_charm hc) = true ->
  truthy (slurmdbd_info (the_charm hc)) = true ->
  is_leader hc = true ->
  get_munge_key (the_charm hc) = VStr key ->
  hostname (the_charm hc) = VStr host ->
  port (the_charm hc) = VStr p ->
  local_data (deliver relation_broken hb (deliver relation_created hc w))
    !! "slurmctld_host"
  = (if decide (host = "") then None else Some (VStr host)) /\
  local_data (deliver relation_broken hb (deliver relation_created hc w))
    !! "slurmctld_port"
  = (if decide (p = "") then None else Some (VStr p)) /\
  local_data (deliver relation_broken hb (deliver relation_created hc w))
    !! "munge_key"
  = (if is_leader hb then None
     else if decide (key = "") then None else Some (VStr key)) /\
  available (deliver relation_broken hb (deliver relation_created hc w))
  = false.
Proof.
  intros Hinst Hinfo Hleader Hkey Hhost Hport.
  rewrite !deliver_data, !deliver_flag. unfold actions_of, publish_actions.
  rewrite Hinst, Hinfo, Hleader, Hkey, Hhost, Hport.
  assert (Htext : forall s : string,
             match s with "" => None | String _ _ => Some (VStr s) end
             = (if decide (s = "") then None else Some (VStr s))).
  { intros s. destruct (decide (s = "")) as [->|Hs]; [done |].
    by destruct s. }
  destruct (is_leader hb); unfold assigned_all; simpl;
    rewrite !lookup_assigned; simpl; rewrite ?Htext; done.
Qed.

Lemma created_then_broken_witness :
  local_data
    (deliver relation_broken leader_hook
       (deliver relation_created leader_hook fresh_world))
    !! "slurmctld_host" = Some (VStr "slurmctld-0") /\
  local_data
    (deliver relation_broken leader_hook
       (deliver relation_created leader_hook fresh_world))
    !! "slurmctld_port" = Some (VStr "6817") /\
  local_data
    (deliver relation_broken leader_hook
       (deliver relation_created leader_hook fresh_world))
    !! "munge_key" = None /\
  available
    (deliver relation_broken leader_hook
       (deliver relation_created leader_hook fresh_world))
  = false.
Proof.
  apply (created_then_broken leader_hook leader_hook fresh_world
           "c2VjcmV0" "slurmctld-0" "6817"); reflexivity.
Defined.

(** X19. The handler of peer-joined on a unit that is not the leader, with
    slurm installed and slurmdbd there, ends in [RelationDataError] at its
    first write: it has read the munge key, written nothing, and left the
    relation data and the availability flag as they were. *)
Theorem relation_created_refused (h : hook) (w : world) :
  is_slurm_installed (the_charm h) = true ->
  truthy (slurmdbd_info (the_charm h)) = true ->
  is_leader h = false ->
  raised relation_created h w = true /\
  deliver relation_created h w
  = {| local_data := local_data w;
       available := available w;
       trace := trace w ++
         [CallIsSlurmInstalled; ReadSlurmdbdInfo; CallGetMungeKey;
          Refused "munge_key" (get_munge_key (the_charm h))] |}.
Proof.
  intros Hinst Hinfo Hleader. split.
  - run_handler. rewrite Hinst. simpl. rewrite Hinfo. simpl.
    by rewrite Hleader.
  - rewrite deliver_effects. unfold actions_of, publish_actions.
    rewrite Hinst, Hinfo, Hleader. by run_effects.
Qed.

Lemma relation_created_refused_witness :
  raised relation_created follower_hook fresh_world = true /\
  deliver relation_created follower_hook fresh_world
  = {| local_data := ∅;
       available := false;
       trace := [CallIsSlurmInstalled; ReadSlurmdbdInfo; CallGetMungeKey;
                 Refused "munge_key" (VStr "c2VjcmV0")] |}.
Proof.
  apply (relation_created_refused follower_hook fresh_world); reflexivity.
Defined.

(** X18. What each handler goes by: the handler of peer-joined by the
    charm and the leadership, not by the data of the peer; the handler of
    peer-data-changed and peer-departed by whether [partition_info] is
    published alone, not by whether slurm is installed, the munge key was
    published or the unit is the leader; the handler of peer-left by the
    leadership alone. *)
Theorem handlers_go_by (h h' : hook) (w : world) :
  (the_charm h = the_charm h' -> is_leader h = is_leader h' ->
   deliver relation_created h w = deliver relation_created h' w) /\
  (truthy (data_get (remote_data h) "partition_info")
   = truthy (data_get (remote_data h') "partition_info") ->
   deliver relation_changed h w = deliver relation_changed h' w /\
   deliver relation_departed h w = deliver relation_departed h' w) /\
  (is_leader h = is_leader h' ->
   deliver relation_broken h w = deliver relation_broken h' w).
Proof.
  rewrite !deliver_effects. unfold actions_of, publish_actions.
  split; [| split].
  - by intros -> ->.
  - by intros ->.
  - by intros ->.
Qed.

Lemma handlers_go_by_witness :
  deliver relation_changed leader_hook fresh_world
  = deliver relation_changed follower_hook fresh_world /\
  deliver relation_departed leader_hook fresh_world
  = deliver relation_departed follower_hook fresh_world.
Proof.
  apply (proj1 (proj2 (handlers_go_by leader_hook follower_hook fresh_world))).
  reflexivity.
Defined.
